(** * agro-track: the project scaffolder [estructura.py]

    The script walks a fixed table of folders and file names, calls
    [os.makedirs(..., exist_ok=True)] for every folder and opens every file
    with mode ['w'], writing the empty string.  This development embeds the
    script together with the parts of the Python library it calls
    ([posixpath.join], [posixpath.split], [os.path.exists], [os.path.isdir],
    [os.makedirs]) and a model of the file-system calls underneath ([stat],
    [mkdir], [open] with [O_WRONLY|O_CREAT|O_TRUNC]).

    The file system holds directories and regular files, addressed by the
    list of names leading from the root.  Access rights, links, quotas and
    other processes are not part of the model, and its calls take every
    string for a name; [within_limits] says which names the real calls
    take. *)

From Equations Require Import Equations.
From Equations.Prop Require Import Logic.
From stdpp Require Import gmap strings list fin_maps.
From Stdlib Require Import Ascii.

(** ** Strings as Python uses them *)

Definition sep : ascii := "/"%char.

(** [bool(s)] for a string. *)
Definition truthy (s : string) : bool :=
  match s with
  | EmptyString => false
  | String _ _ => true
  end.

(** [s.startswith('/')] *)
Definition startswith_sep (s : string) : bool :=
  match s with
  | String c _ => Ascii.eqb c sep
  | EmptyString => false
  end.

(** [s.endswith('/')] *)
Fixpoint endswith_sep (s : string) : bool :=
  match s with
  | EmptyString => false
  | String c EmptyString => Ascii.eqb c sep
  | String _ s' => endswith_sep s'
  end.

(** ['/' in s] *)
Fixpoint has_sep (s : string) : bool :=
  match s with
  | EmptyString => false
  | String c s' => Ascii.eqb c sep || has_sep s'
  end.

(** [s == '/' * len(s)] *)
Fixpoint all_sep (s : string) : bool :=
  match s with
  | EmptyString => true
  | String c s' => Ascii.eqb c sep && all_sep s'
  end.

(** [s.rstrip('/')] *)
Fixpoint rstrip_sep (s : string) : string :=
  match s with
  | EmptyString => EmptyString
  | String c s' =>
      if Ascii.eqb c sep && all_sep s' then EmptyString
      else String c (rstrip_sep s')
  end.

(** [(s[:i], s[i:])] for [i = s.rfind('/') + 1]. *)
Fixpoint cut_last_sep (s : string) : string * string :=
  match s with
  | EmptyString => (EmptyString, EmptyString)
  | String c s' =>
      if has_sep s' then
        let '(h, t) := cut_last_sep s' in (String c h, t)
      else if Ascii.eqb c sep then (String c EmptyString, s')
      else (EmptyString, String c s')
  end.

(** ** [posixpath] *)

Module posixpath.

(** [posixpath.join(a, b)]; a call with three arguments is
    [join (join a b) c], as the loop of the library does. *)
Definition join (a b : string) : string :=
  if startswith_sep b then b
  else if negb (truthy a) || endswith_sep a then a +:+ b
  else a +:+ String sep b.

(** [posixpath.split(p)] *)
Definition split (p : string) : string * string :=
  let '(head, tail) := cut_last_sep p in
  if truthy head && negb (all_sep head)
  then (rstrip_sep head, tail)
  else (head, tail).

End posixpath.

(** ** The file system *)

Inductive node : Type :=
| Dir
| File (data : string).

Global Instance node_eq_dec : EqDecision node.
Proof. solve_decision. Defined.

(** A key is the list of names from the root down to an entry. *)
Record filesystem : Type := mkFS {
  cwd : list string;
  tree : gmap (list string) node
}.

Global Instance filesystem_eq_dec : EqDecision filesystem.
Proof. solve_decision. Defined.

Inductive errno : Type := ENOENT | EEXIST | ENOTDIR | EISDIR.

Global Instance errno_eq_dec : EqDecision errno.
Proof. solve_decision. Defined.

(** The text between the separators, empty pieces included. *)
Fixpoint components (p : string) : list string :=
  match p with
  | EmptyString => [EmptyString]
  | String c p' =>
      if Ascii.eqb c sep then EmptyString :: components p'
      else match components p' with
           | x :: r => String c x :: r
           | [] => [String c EmptyString]
           end
  end.

(** The names a path is made of: repeated and trailing separators give
    no name. *)
Definition segments (p : string) : list string :=
  filter (λ x, x ≠ EmptyString) (components p).

(** [os.curdir] and [os.pardir]. *)
Definition dot : string := ".".
Definition dotdot : string := "..".

(** One step of a lookup inside the directory [cur]. *)
Definition lookup_step (cur : list string) (c : string) : list string :=
  if decide (c = dot) then cur
  else if decide (c = dotdot) then removelast cur
  else cur ++ [c].

(** Follow the names [cs] from the directory [cur]: every name is looked up
    in something that has to be a directory. *)
Fixpoint walk (t : gmap (list string) node) (cur : list string)
    (cs : list string) : errno + list string :=
  match cs with
  | [] => inr cur
  | c :: cs' =>
      match t !! cur with
      | Some Dir => walk t (lookup_step cur c) cs'
      | Some (File _) => inl ENOTDIR
      | None => inl ENOENT
      end
  end.

(** Where a lookup starts: the root for an absolute path, the working
    directory otherwise. *)
Definition start (s : filesystem) (p : string) : list string :=
  if startswith_sep p then [] else cwd s.

(** Path resolution: the key a path names, whether or not the last name
    exists. *)
Definition namei (s : filesystem) (p : string) : errno + list string :=
  if truthy p then walk (tree s) (start s p) (segments p) else inl ENOENT.

(** The two names every directory has. *)
Definition special (c : string) : bool :=
  bool_decide (c = dot) || bool_decide (c = dotdot).

Module sys.

(** [stat(p)]: a trailing separator asks for a directory. *)
Definition stat (s : filesystem) (p : string) : errno + node :=
  match namei s p with
  | inl e => inl e
  | inr k =>
      match tree s !! k with
      | None => inl ENOENT
      | Some Dir => inr Dir
      | Some (File d) => if endswith_sep p then inl ENOTDIR else inr (File d)
      end
  end.

(** [mkdir(p)]: the parent has to be a directory, the name has to be
    new. *)
Definition mkdir (s : filesystem) (p : string) : errno + filesystem :=
  match namei s p with
  | inl e => inl e
  | inr k =>
      match last (segments p) with
      | None => inl EEXIST
      | Some c =>
          if special c then inl EEXIST
          else match tree s !! k with
               | Some _ => inl EEXIST
               | None => inr (mkFS (cwd s) (<[k := Dir]> (tree s)))
               end
      end
  end.

(** [open(p, O_WRONLY|O_CREAT|O_TRUNC)]: the key of the opened file
    stands for the descriptor. *)
Definition open_trunc (s : filesystem) (p : string)
    : errno + (list string * filesystem) :=
  match namei s p with
  | inl e => inl e
  | inr k =>
      if endswith_sep p then inl EISDIR
      else match last (segments p) with
           | None => inl EISDIR
           | Some c =>
               if special c then inl EISDIR
               else match tree s !! k with
                    | Some Dir => inl EISDIR
                    | _ =>
                        inr (k, mkFS (cwd s)
                                  (<[k := File EmptyString]> (tree s)))
                    end
           end
  end.

(** [write(fd, data)] at the end of the file. *)
Definition write (s : filesystem) (fd : list string) (data : string)
    : filesystem :=
  mkFS (cwd s)
       (alter (λ n, match n with
                    | File d => File (d +:+ data)
                    | Dir => Dir
                    end) fd (tree s)).

End sys.

(** ** Python's run time: a state and exceptions *)

Record OSError : Type := mkOSError {
  err : errno;
  filename : string
}.

Global Instance OSError_eq_dec : EqDecision OSError.
Proof. solve_decision. Defined.

Inductive result (A : Type) : Type :=
| Return (a : A)
| Raise (e : OSError).
Arguments Return {A} a.
Arguments Raise {A} e.

Global Instance result_eq_dec `{EqDecision A} : EqDecision (result A).
Proof. solve_decision. Defined.

(** A statement runs on a file system and leaves one behind, also when it
    raises. *)
Definition io (A : Type) : Type := filesystem → result A * filesystem.

Global Instance io_ret : MRet io := λ A a s, (Return a, s).

Global Instance io_bind : MBind io := λ A B f m s,
  match m s with
  | (Return a, s') => f a s'
  | (Raise e, s') => (Raise e, s')
  end.

(** [try: m  except OSError as e: handler(e)] *)
Definition try_except {A : Type} (m : io A) (handler : OSError → io A) : io A :=
  λ s, match m s with
       | (Return a, s') => (Return a, s')
       | (Raise e, s') => handler e s'
       end.

(** [raise e] *)
Definition raise {A : Type} (e : OSError) : io A := λ s, (Raise e, s).

(** [for x in l: body(x)] *)
Fixpoint for_each {A : Type} (l : list A) (body : A → io unit) : io unit :=
  match l with
  | [] => mret tt
  | x :: l' => _ ← body x; for_each l' body
  end.

(** [isinstance(e, FileExistsError)] *)
Definition is_FileExistsError (e : OSError) : bool :=
  bool_decide (err e = EEXIST).

Module os.

(** [os.mkdir(name)] *)
Definition mkdir (name : string) : io unit := λ s,
  match sys.mkdir s name with
  | inl e => (Raise (mkOSError e name), s)
  | inr s' => (Return tt, s')
  end.

Module path.

(** [os.path.exists]: [os.stat] did not raise. *)
Definition exists_ (s : filesystem) (p : string) : bool :=
  match sys.stat s p with
  | inr _ => true
  | inl _ => false
  end.

(** [os.path.isdir] *)
Definition isdir (s : filesystem) (p : string) : bool :=
  match sys.stat s p with
  | inr Dir => true
  | _ => false
  end.

End path.

(** The first lines of [makedirs]: split, and split again when the name
    ends in a separator. *)
Definition head_tail (name : string) : string * string :=
  let '(head, tail) := posixpath.split name in
  if negb (truthy tail) then posixpath.split head else (head, tail).

(** The last lines of [makedirs]: [mkdir], forgiving an error when
    [exist_ok] is set and the name is a directory. *)
Definition mkdir_exist_ok (exist_ok : bool) (name : string) : io unit :=
  try_except (mkdir name)
    (λ e s, if negb exist_ok || negb (path.isdir s name)
            then (Raise e, s) else (Return tt, s)).

(** [makedirs] with its recursive call abstracted as [self]. *)
Definition makedirs_body (self : string → io unit)
    (name : string) (exist_ok : bool) : io unit :=
  let '(head, tail) := head_tail name in
  λ s,
    if truthy head && truthy tail && negb (path.exists_ s head) then
      let continue : io unit :=
        if bool_decide (tail = dot) then mret tt
        else mkdir_exist_ok exist_ok name in
      (_ ← try_except (self head)
             (λ e, if is_FileExistsError e then mret tt else raise e);
       continue) s
    else mkdir_exist_ok exist_ok name s.

End os.

(** [os.makedirs(name, exist_ok=exist_ok)].  The recursive call is on the
    head of the name, and only when head and tail are both non-empty, so the
    name gets shorter. *)
Equations? makedirs (name : string) (exist_ok : bool) : io unit
  by wf (String.length name) lt :=
  makedirs name exist_ok with inspect (os.head_tail name) := {
    | exist _ (hd, tl) Hsplit with bool_dec (truthy hd && truthy tl) true := {
      | left Hguard =>
          os.makedirs_body (λ _, makedirs hd exist_ok) name exist_ok
      | right _ =>
          os.makedirs_body (λ _, mret tt) name exist_ok } }.
Proof.
  assert (Hcut : ∀ p h t, cut_last_sep p = (h, t) →
            String.length h + String.length t = String.length p).
  { induction p as [|c p IH]; intros h t; simpl.
    - intros [= <- <-]. reflexivity.
    - destruct (has_sep p).
      + destruct (cut_last_sep p) as [h' t'] eqn:E. intros [= <- <-].
        simpl. rewrite <- (IH h' t' eq_refl). lia.
      + destruct (Ascii.eqb c sep); intros [= <- <-]; simpl; lia. }
  assert (Hstrip : ∀ p, String.length (rstrip_sep p) ≤ String.length p).
  { induction p as [|c p IH]; simpl; [lia|].
    destruct (Ascii.eqb c sep && all_sep p); simpl; lia. }
  assert (Hsp : ∀ p h t, posixpath.split p = (h, t) →
            String.length h + String.length t ≤ String.length p).
  { intros p h t. unfold posixpath.split.
    destruct (cut_last_sep p) as [h' t'] eqn:E. apply Hcut in E.
    destruct (truthy h' && negb (all_sep h')); intros [= <- <-];
      [pose proof (Hstrip h')|]; lia. }
  unfold os.head_tail in Hsplit.
  destruct (posixpath.split name) as [h1 t1] eqn:E1. apply Hsp in E1.
  destruct tl as [|c tl]; [by destruct hd|].
  destruct (truthy t1); simpl in Hsplit.
  - injection Hsplit as -> ->. simpl in E1. lia.
  - apply Hsp in Hsplit. simpl in Hsplit. lia.
Qed.

(** [open(file_path, 'w')]: the file object is the descriptor. *)
Definition open_w (file_path : string) : io (list string) := λ s,
  match sys.open_trunc s file_path with
  | inl e => (Raise (mkOSError e file_path), s)
  | inr (fd, s') => (Return fd, s')
  end.

(** [f.write(data)], flushed when the [with] block closes the file. *)
Definition file_write (f : list string) (data : string) : io unit := λ s,
  (Return tt, sys.write s f data).

(** ** The script *)

Definition base_dir : string := "src".

(** The dictionary literal, as [structure.items()] yields it. *)
Definition structure : list (string * list string) :=
  [ ("components/auth", ["LoginPage.jsx"; "ProtectedRoute.jsx"]);
    ("components/camas", ["AdminDashboard.jsx"; "CamaForm.jsx"; "CamaViewer.jsx";
                          "QrGenerator.jsx"; "SearchBar.jsx"]);
    ("components/layout", ["Navbar.jsx"]);
    ("firebase", ["config.js"]);
    ("hooks", ["useAuth.js"]);
    ("pages", ["AdminPage.jsx"; "CamaPage.jsx"; "HomePage.jsx"]);
    (".", ["App.jsx"; "main.jsx"; "routes.jsx"]) ].

(** The inner loop: one empty file per name. *)
Definition create_files (full_folder_path : string) (files : list string)
    : io unit :=
  for_each files (λ file_name,
    let file_path := posixpath.join full_folder_path file_name in
    f ← open_w file_path;
    file_write f "").

(** The body of the outer loop. *)
Definition create_folder (base : string) (entry : string * list string)
    : io unit :=
  let '(folder, files) := entry in
  let full_folder_path := posixpath.join base folder in
  _ ← makedirs full_folder_path true;
  create_files full_folder_path files.

(** The two nested loops over a table. *)
Definition scaffold (base : string) (table : list (string * list string))
    : io unit :=
  for_each table (create_folder base).

(** The script as it stands. *)
Definition main : io unit := scaffold base_dir structure.

(** ** The run as a sequence of steps *)

(** The two things the loops do: make a folder, make an empty file. *)
Inductive action : Type :=
| MakeDirs (full_folder_path : string)
| CreateFile (file_path : string).

(** One step, as the loops run it. *)
Definition run_action (a : action) : io unit :=
  match a with
  | MakeDirs p => makedirs p true
  | CreateFile p => f ← open_w p; file_write f ""
  end.

(** The steps for one entry of the table. *)
Definition entry_actions (base : string) (entry : string * list string)
    : list action :=
  MakeDirs (posixpath.join base entry.1)
  :: map (λ file_name,
        CreateFile (posixpath.join (posixpath.join base entry.1) file_name))
       entry.2.

(** The steps of a run, in the order of the loops. *)
Definition actions (base : string) (table : list (string * list string))
    : list action :=
  concat (map (entry_actions base) table).

(** ** Observations on a file system *)

(** The content of the regular file a path names. *)
Definition file_content (s : filesystem) (p : string) : option string :=
  match sys.stat s p with
  | inr (File d) => Some d
  | _ => None
  end.

(** The key a path names when every lookup on the way succeeds. *)
Definition norm (s : filesystem) (p : string) : list string :=
  foldl lookup_step (start s p) (segments p).

(** The key of the leading part of a path made of its first [i] names. *)
Definition prefix_key (s : filesystem) (p : string) (i : nat) : list string :=
  foldl lookup_step (start s p) (take i (segments p)).

(** A file system as the kernel keeps it: the root and the working
    directory are directories, and every entry lies in a directory. *)
Definition wf_fs (s : filesystem) : Prop :=
  tree s !! [] = Some Dir ∧
  tree s !! cwd s = Some Dir ∧
  ∀ k, is_Some (tree s !! k) → tree s !! removelast k = Some Dir.

(** [s'] has everything [s] has, and maybe more directories. *)
Definition adds_dirs (s s' : filesystem) : Prop :=
  cwd s' = cwd s ∧
  ∀ k, tree s' !! k = tree s !! k ∨
       (tree s !! k = None ∧ tree s' !! k = Some Dir).

(** [s'] has everything [s] has, a file maybe emptied. *)
Definition grows (s s' : filesystem) : Prop :=
  cwd s' = cwd s ∧
  ∀ k, match tree s !! k with
       | Some Dir => tree s' !! k = Some Dir
       | Some (File d) =>
           tree s' !! k = Some (File d) ∨ tree s' !! k = Some (File "")
       | None => True
       end.

(** No name of the path is [".."]. *)
Definition plain (p : string) : Prop := dotdot ∉ segments p.

(** The keys of the leading parts of a path, one for each of its names,
    the last being the key of the path itself. *)
Definition prefix_keys (s : filesystem) (p : string) : list (list string) :=
  map (prefix_key s p) (seq 1 (length (segments p))).

(** What a lookup found is a regular file. *)
Definition is_regular (o : option node) : Prop :=
  match o with
  | Some (File _) => True
  | _ => False
  end.

(** No leading part of the path is a regular file. *)
Definition no_collision (s : filesystem) (p : string) : Prop :=
  Forall (λ k, ¬ is_regular (tree s !! k)) (prefix_keys s p).

(** The same said of every depth, the start of the lookup included. *)
Definition clear_path (s : filesystem) (p : string) : Prop :=
  ∀ i d, tree s !! prefix_key s p i ≠ Some (File d).

(** No leading part of the path exists. *)
Definition all_missing (s : filesystem) (p : string) : Prop :=
  Forall (λ k, tree s !! k = None) (prefix_keys s p).

(** A step has nothing left to do: the folder is there, the file is there
    and empty. *)
Definition settled (s : filesystem) (a : action) : Prop :=
  match a with
  | MakeDirs p => os.path.isdir s p = true
  | CreateFile p => file_content s p = Some ""
  end.

(** The keys one step is entitled to touch. *)
Definition action_keys (s : filesystem) (a : action) : list (list string) :=
  match a with
  | MakeDirs p => prefix_keys s p
  | CreateFile p => [norm s p]
  end.

(** The keys a run is entitled to touch: the folders of the table with the
    directories leading to them, and the files of the table. *)
Definition target_keys (base : string) (table : list (string * list string))
    (s : filesystem) : list (list string) :=
  concat (map (action_keys s) (actions base table)).

(** ** The shape of a table *)

(** A name of a path: not empty, not ["."], not [".."]. *)
Definition proper_name (c : string) : Prop :=
  c ≠ "" ∧ c ≠ dot ∧ c ≠ dotdot.

(** A relative folder: ["."], or names with one separator between them. *)
Definition relative_dir (d : string) : Prop :=
  d = dot ∨ Forall proper_name (components d).

(** A file name: no separator in it. *)
Definition file_name_ok (f : string) : Prop := has_sep f = false.

(** The shape of the table as the data model has it. *)
Definition table_ok (table : list (string * list string)) : Prop :=
  Forall (λ entry, relative_dir entry.1 ∧ Forall file_name_ok entry.2) table.

(** Every folder of the table, joined to the base directory, is plain. *)
Definition plain_folders (base : string)
    (table : list (string * list string)) : Prop :=
  Forall (λ entry, plain (posixpath.join base entry.1)) table.

(** Somebody writes [data] into the regular file at [p]. *)
Definition overwrite (s : filesystem) (p : string) (data : string)
    : filesystem :=
  match namei s p with
  | inr k =>
      match tree s !! k with
      | Some (File _) => mkFS (cwd s) (<[k := File data]> (tree s))
      | _ => s
      end
  | inl _ => s
  end.

(** ** Deciding the predicates *)

Global Instance is_regular_dec o : Decision (is_regular o).
Proof. destruct o as [[|d]|]; apply _. Defined.

Global Instance no_collision_dec s p : Decision (no_collision s p).
Proof. unfold no_collision. apply _. Defined.

Global Instance all_missing_dec s p : Decision (all_missing s p).
Proof. unfold all_missing. apply _. Defined.

Global Instance plain_dec p : Decision (plain p).
Proof. unfold plain. apply _. Defined.

Global Instance proper_name_dec c : Decision (proper_name c).
Proof. unfold proper_name. apply _. Defined.

Global Instance relative_dir_dec d : Decision (relative_dir d).
Proof. unfold relative_dir. apply _. Defined.

Global Instance file_name_ok_dec f : Decision (file_name_ok f).
Proof. unfold file_name_ok. apply _. Defined.

Global Instance table_ok_dec table : Decision (table_ok table).
Proof. unfold table_ok. apply _. Defined.

Global Instance plain_folders_dec base table :
  Decision (plain_folders base table).
Proof. unfold plain_folders. apply _. Defined.

Global Instance wf_fs_dec s : Decision (wf_fs s).
Proof.
  refine (cast_if (decide
    (tree s !! [] = Some Dir ∧ tree s !! cwd s = Some Dir ∧
     map_Forall (λ k _, tree s !! removelast k = Some Dir) (tree s))));
    unfold wf_fs, map_Forall.
  - match goal with H : _ ∧ _ ∧ _ |- _ => destruct H as (Hr & Hc & Hp) end.
    split_and!; [done..|]. intros k [n Hk]. by eapply Hp.
  - intros (Hr & Hc & Hp). match goal with H : ¬ _ |- _ => apply H end.
    split_and!; [done..|]. intros k nd Hk. apply Hp. by rewrite Hk.
Defined.

(** ** States to try things on *)

(** A fresh project folder: the working directory and nothing in it. *)
Definition fs_fresh : filesystem :=
  mkFS ["home"; "agro-track"]
    (<[ ["home"; "agro-track"] := Dir ]>
       (<[ ["home"] := Dir ]> {[ [] := Dir ]})).

(** The same with a hook somebody has already written, and a read-me. *)
Definition fs_with_hook : filesystem :=
  mkFS ["home"; "agro-track"]
    (<[ ["home"; "agro-track"; "src"; "hooks"; "useAuth.js"]
          := File "export const useAuth = () => null;" ]>
       (<[ ["home"; "agro-track"; "src"; "hooks"] := Dir ]>
          (<[ ["home"; "agro-track"; "src"] := Dir ]>
             (<[ ["home"; "agro-track"; "README.md"] := File "# agro-track" ]>
                (tree fs_fresh))))).

(** A regular file where the table wants the folder [pages]. *)
Definition fs_blocked : filesystem :=
  mkFS ["home"; "agro-track"]
    (<[ ["home"; "agro-track"; "src"; "pages"] := File "notes" ]>
       (<[ ["home"; "agro-track"; "src"] := Dir ]> (tree fs_fresh))).

(** A regular file [f] next to nothing else under [src]. *)
Definition fs_with_file : filesystem :=
  mkFS ["home"; "agro-track"]
    (<[ ["home"; "agro-track"; "src"; "f"] := File "x" ]>
       (<[ ["home"; "agro-track"; "src"] := Dir ]> (tree fs_fresh))).

(** ** The keys of a table *)

(** The keys of the folders of a table and of the directories leading to
    them. *)
Definition folder_keys (base : string) (table : list (string * list string))
    (s : filesystem) : list (list string) :=
  concat (map (λ entry, prefix_keys s (posixpath.join base entry.1)) table).

(** The keys of the files of a table. *)
Definition file_keys (base : string) (table : list (string * list string))
    (s : filesystem) : list (list string) :=
  concat (map (λ entry,
            map (λ file_name,
                   norm s (posixpath.join (posixpath.join base entry.1)
                             file_name))
                entry.2) table).

(** What a run that raises nothing leaves at a key. *)
Definition expected (base : string) (table : list (string * list string))
    (s : filesystem) (k : list string) : option node :=
  if decide (k ∈ file_keys base table s) then Some (File "")
  else if decide (k ∈ folder_keys base table s) then Some Dir
  else tree s !! k.

(** A state with the root for working directory: the keys computed on it
    are the keys below the working directory of any state. *)
Definition at_root : filesystem := mkFS [] ∅.

(** A table the loops can work through: every folder path is relative, not
    empty and plain, every file name is a proper name without separator,
    and no file goes where a folder or a directory leading to one goes. *)
Definition tidy (base : string) (table : list (string * list string))
    : Prop :=
  Forall (λ entry,
            truthy (posixpath.join base entry.1) = true ∧
            startswith_sep (posixpath.join base entry.1) = false ∧
            plain (posixpath.join base entry.1) ∧
            Forall (λ f, file_name_ok f ∧ proper_name f) entry.2) table ∧
  Forall (λ k, k ∉ folder_keys base table at_root)
         (file_keys base table at_root).

Global Instance tidy_dec base table : Decision (tidy base table).
Proof. unfold tidy. apply _. Defined.

(** The entries a run finds in its way: a regular file at the key of a
    folder or of a directory leading to one, a directory at the key of a
    file. *)
Definition unobstructed (base : string) (table : list (string * list string))
    (s : filesystem) : Prop :=
  Forall (λ k, ¬ is_regular (tree s !! k)) (folder_keys base table s) ∧
  Forall (λ k, tree s !! k ≠ Some Dir) (file_keys base table s).

Global Instance unobstructed_dec base table s :
  Decision (unobstructed base table s).
Proof. unfold unobstructed. apply _. Defined.

(** A directory where the table wants the file [App.jsx]. *)
Definition fs_dir_for_file : filesystem :=
  mkFS ["home"; "agro-track"]
    (<[ ["home"; "agro-track"; "src"; "App.jsx"] := Dir ]>
       (<[ ["home"; "agro-track"; "src"] := Dir ]> (tree fs_fresh))).

(** What [x] has and [s] had not is of the run's making: a directory at a
    folder key, a regular file at a file key. *)
Definition made_by (base : string) (table : list (string * list string))
    (s x : filesystem) : Prop :=
  cwd x = cwd s ∧
  (∀ k, tree x !! k = Some Dir →
        tree s !! k = Some Dir ∨ k ∈ folder_keys base table s) ∧
  (∀ k, is_regular (tree x !! k) →
        is_regular (tree s !! k) ∨ k ∈ file_keys base table s).

(** ** The limits on names

    The calls above take every string for a name.  The real ones do not: a
    path with a NUL byte is refused before any call is made ([ValueError]);
    the kernel refuses a name of more than [NAME_MAX] bytes and a path of
    [PATH_MAX] bytes or more ([ENAMETOOLONG]); and [os.makedirs] calls
    itself once for every missing leading part of its path, which the
    interpreter allows up to its limit of 1000 nested calls.  Strings stand
    for byte strings.  A path is within the limits when none of this can
    happen to it. *)
Definition NAME_MAX : nat := 255.
Definition PATH_MAX : nat := 4096.
Definition DEPTH_MAX : nat := 500.

(** ['\0' in s] *)
Fixpoint has_nul (s : string) : bool :=
  match s with
  | EmptyString => false
  | String c s' => Ascii.eqb c Ascii.zero || has_nul s'
  end.

Definition within_limits (p : string) : Prop :=
  has_nul p = false ∧
  String.length p < PATH_MAX ∧
  Forall (λ c, String.length c ≤ NAME_MAX) (segments p) ∧
  length (segments p) ≤ DEPTH_MAX.

Global Instance within_limits_dec p : Decision (within_limits p).
Proof. unfold within_limits. apply _. Defined.

(** Every path the run hands to [os.makedirs] or to [open] is within the
    limits. *)
Definition names_within_limits (base : string)
    (table : list (string * list string)) : Prop :=
  Forall (λ entry,
            within_limits (posixpath.join base entry.1) ∧
            Forall (λ file_name,
                      within_limits
                        (posixpath.join (posixpath.join base entry.1)
                           file_name)) entry.2) table.

Global Instance names_within_limits_dec base table :
  Decision (names_within_limits base table).
Proof. unfold names_within_limits. apply _. Defined.

(** * Properties *)

(** ** Strings and paths *)

Lemma append_cons c a b : String c a +:+ b = String c (a +:+ b).
Proof. reflexivity. Qed.

Lemma append_nil_l a : "" +:+ a = a.
Proof. reflexivity. Qed.

Lemma append_nil_r a : a +:+ "" = a.
Proof. induction a as [|c a IH]; [done|]. by rewrite append_cons, IH. Qed.

Lemma append_assoc a b c : (a +:+ b) +:+ c = a +:+ (b +:+ c).
Proof. induction a as [|x a IH]; [done|]. by rewrite !append_cons, IH. Qed.

Lemma truthy_true s : truthy s = true ↔ s ≠ "".
Proof. by destruct s. Qed.

Lemma truthy_false s : truthy s = false ↔ s = "".
Proof. by destruct s. Qed.

Lemma truthy_append a b : truthy a = true → truthy (a +:+ b) = true.
Proof. by destruct a. Qed.

Lemma sep_eqb c : Ascii.eqb c sep = true ↔ c = sep.
Proof. apply Ascii.eqb_eq. Qed.

Lemma components_cons p : ∃ x r, components p = x :: r.
Proof.
  induction p as [|c p (x & r & E)]; simpl; [by eauto|].
  destruct (Ascii.eqb c sep); [by eauto|]. rewrite E. eauto.
Qed.

Lemma components_app_sep a b :
  components (a +:+ String sep b) = components a ++ components b.
Proof.
  induction a as [|c a IH].
  - reflexivity.
  - rewrite append_cons. simpl. destruct (Ascii.eqb c sep).
    + by rewrite IH.
    + rewrite IH. by destruct (components_cons a) as (x & r & ->).
Qed.

Lemma segments_app_sep a b :
  segments (a +:+ String sep b) = segments a ++ segments b.
Proof. unfold segments. by rewrite components_app_sep, filter_app. Qed.

Lemma segments_nil : segments "" = [].
Proof. reflexivity. Qed.

Lemma components_no_sep t : has_sep t = false → components t = [t].
Proof.
  induction t as [|c t IH]; simpl; [done|].
  intros [Hc Ht]%orb_false_elim. rewrite Hc. by rewrite IH.
Qed.

Lemma segments_no_sep t :
  has_sep t = false → segments t = if truthy t then [t] else [].
Proof.
  intros H. unfold segments. rewrite components_no_sep by done.
  by destruct t.
Qed.

Lemma segments_all_sep z : all_sep z = true → segments z = [].
Proof.
  induction z as [|c z IH]; [done|]. simpl.
  intros [Hc Hz]%andb_prop. apply sep_eqb in Hc as ->.
  change (String sep z) with ("" +:+ String sep z).
  rewrite segments_app_sep. by rewrite IH.
Qed.

Lemma segments_app_all_sep a z :
  all_sep z = true → segments (a +:+ z) = segments a.
Proof.
  destruct z as [|c z]; [by rewrite append_nil_r|]. simpl.
  intros [Hc Hz]%andb_prop. apply sep_eqb in Hc as ->.
  rewrite segments_app_sep, (segments_all_sep z) by done.
  by rewrite app_nil_r.
Qed.

Lemma startswith_sep_append a b :
  truthy a = true → startswith_sep (a +:+ b) = startswith_sep a.
Proof. by destruct a. Qed.

Lemma segments_nil_startswith p :
  segments p = [] → truthy p = true → startswith_sep p = true.
Proof.
  destruct p as [|c p]; [done|]. intros H _. simpl.
  destruct (Ascii.eqb c sep) eqn:E; [done|].
  unfold segments in H. simpl in H. rewrite E in H.
  destruct (components_cons p) as (x & r & Hp). rewrite Hp in H.
  rewrite filter_cons_True in H by done. done.
Qed.

(** [endswith_sep] and the last piece of a string. *)
Lemma endswith_sep_append_sep a : endswith_sep (a +:+ String sep "") = true.
Proof.
  induction a as [|c a IH]; [done|]. rewrite append_cons.
  simpl. destruct (a +:+ String sep "") eqn:E; [by destruct a|done].
Qed.

Lemma endswith_sep_cons c a :
  truthy a = true → endswith_sep (String c a) = endswith_sep a.
Proof. by destruct a. Qed.

Lemma endswith_sep_append a b :
  truthy b = true → endswith_sep (a +:+ b) = endswith_sep b.
Proof.
  intros Hb. induction a as [|c a IH]; [done|].
  rewrite append_cons, endswith_sep_cons; [done|].
  destruct a; [done|done].
Qed.

Lemma endswith_sep_no_sep t : has_sep t = false → endswith_sep t = false.
Proof.
  induction t as [|c t IH]; [done|]. simpl.
  intros [Hc Ht]%orb_false_elim. destruct t; [done|]. by apply IH.
Qed.


Lemma cut_last_sep_spec p h t :
  cut_last_sep p = (h, t) →
  p = h +:+ t ∧ has_sep t = false ∧
  (h = "" ∨ ∃ h', h = h' +:+ String sep "").
Proof.
  revert h t. induction p as [|c p IH]; intros h t; simpl.
  { intros [= <- <-]. auto. }
  destruct (has_sep p) eqn:Hp.
  - destruct (cut_last_sep p) as [h' t'] eqn:E. intros [= <- <-].
    destruct (IH h' t' eq_refl) as (Hpe & Ht & Hh).
    split_and!; [by rewrite append_cons, <- Hpe|done|].
    right. destruct Hh as [->|[h'' ->]].
    + rewrite append_nil_l in Hpe. congruence.
    + by exists (String c h'').
  - destruct (Ascii.eqb c sep) eqn:Hc; intros [= <- <-].
    + apply sep_eqb in Hc as ->. split_and!; [done..|]. right. by exists "".
    + split_and!; [done| |by left]. simpl. by rewrite Hc, Hp.
Qed.

Lemma rstrip_sep_spec h :
  ∃ z, all_sep z = true ∧ h = rstrip_sep h +:+ z.
Proof.
  induction h as [|c h (z & Hz & IH)]; [by exists ""|]. simpl.
  destruct (Ascii.eqb c sep && all_sep h) eqn:E.
  - exists (String c h). by split.
  - exists z. split; [done|]. by rewrite append_cons, <- IH.
Qed.

Lemma rstrip_sep_nil h : rstrip_sep h = "" ↔ all_sep h = true.
Proof.
  split.
  - destruct h as [|c h]; [done|]. simpl.
    by destruct (Ascii.eqb c sep && all_sep h).
  - destruct h as [|c h]; [done|]. simpl. by intros ->.
Qed.

Lemma rstrip_sep_truthy h : all_sep h = false → truthy (rstrip_sep h) = true.
Proof.
  intros H. apply truthy_true. intros E%rstrip_sep_nil. congruence.
Qed.

Lemma rstrip_sep_endswith h : endswith_sep (rstrip_sep h) = false.
Proof.
  induction h as [|c h IH]; [done|]. simpl.
  destruct (Ascii.eqb c sep && all_sep h) eqn:E; [done|].
  destruct (rstrip_sep h) eqn:Er.
  - apply rstrip_sep_nil in Er. rewrite Er, andb_true_r in E. by simpl.
  - by rewrite endswith_sep_cons.
Qed.

Lemma segments_rstrip_sep h : segments (rstrip_sep h) = segments h.
Proof.
  destruct (rstrip_sep_spec h) as (z & Hz & E).
  rewrite E at 2. by rewrite segments_app_all_sep.
Qed.

Lemma startswith_rstrip_sep h :
  all_sep h = false → startswith_sep (rstrip_sep h) = startswith_sep h.
Proof.
  intros H. destruct (rstrip_sep_spec h) as (z & Hz & E).
  rewrite E at 2. by rewrite startswith_sep_append by by apply rstrip_sep_truthy.
Qed.

Lemma split_spec p hd tl :
  posixpath.split p = (hd, tl) →
  has_sep tl = false ∧
  segments p = segments hd ++ segments tl ∧
  (truthy hd = true → startswith_sep hd = startswith_sep p ∧ truthy p = true) ∧
  (all_sep hd = true ∨ endswith_sep hd = false) ∧
  (truthy tl = false → all_sep p = true ∨ endswith_sep p = true).
Proof.
  unfold posixpath.split. destruct (cut_last_sep p) as [h0 t0] eqn:E.
  apply cut_last_sep_spec in E as (Hp & Ht & Hh).
  assert (Hseg : segments p = segments h0 ++ segments t0).
  { destruct Hh as [->|[h' ->]]; [by rewrite Hp|].
    rewrite Hp, append_assoc, append_cons, append_nil_l.
    rewrite !segments_app_sep. by rewrite segments_nil, app_nil_r. }
  assert (Hst : truthy h0 = true →
            startswith_sep h0 = startswith_sep p ∧ truthy p = true).
  { intros H0. rewrite Hp. by rewrite startswith_sep_append, truthy_append. }
  assert (Hend : truthy t0 = false → all_sep h0 = true ∨ endswith_sep p = true).
  { intros ->%truthy_false. rewrite append_nil_r in Hp. subst h0.
    destruct Hh as [->|[h' ->]]; [by left|right].
    apply endswith_sep_append_sep. }
  destruct (truthy h0 && negb (all_sep h0)) eqn:G; intros [= <- <-].
  - apply andb_prop in G as [G1 G2]. apply negb_true_iff in G2.
    split_and!; [done| | | |].
    + by rewrite segments_rstrip_sep.
    + intros _. rewrite startswith_rstrip_sep by done. auto.
    + right. apply rstrip_sep_endswith.
    + intros H. destruct (Hend H); [congruence|by right].
  - split_and!; [done..| |].
    + destruct h0 as [|c h0]; [by left|]. simpl in G.
      apply negb_false_iff in G. by left.
    + intros H. destruct (Hend H) as [Ha|]; [|by right].
      left. apply truthy_false in H. subst t0. by rewrite Hp, append_nil_r.
Qed.

(** What [makedirs] learns from its two calls of [split]. *)
Lemma head_tail_spec name hd tl :
  os.head_tail name = (hd, tl) →
  has_sep tl = false ∧
  segments name = segments hd ++ segments tl ∧
  (truthy hd = true →
     startswith_sep hd = startswith_sep name ∧ truthy name = true) ∧
  (all_sep hd = true ∨ endswith_sep hd = false) ∧
  (truthy tl = false → segments name = []).
Proof.
  unfold os.head_tail.
  destruct (posixpath.split name) as [h1 t1] eqn:E1.
  apply split_spec in E1 as (Ht1 & Hseg1 & Hst1 & Hend1 & Hnil1).
  destruct (truthy t1) eqn:Htr; simpl.
  - intros [= <- <-]. split_and!; auto. congruence.
  - intros E2. apply truthy_false in Htr as ->.
    rewrite segments_nil, app_nil_r in Hseg1.
    apply split_spec in E2 as (Ht & Hseg & Hst & Hend & Hnil).
    split_and!; [done| |  |done|].
    + by rewrite Hseg1.
    + intros H. destruct (Hst H) as [-> Hh1]. by apply Hst1.
    + intros H. rewrite Hseg1. destruct (Hnil H) as [Ha|He].
      * by apply segments_all_sep.
      * destruct Hend1 as [Ha|Hne]; [by apply segments_all_sep|congruence].
Qed.

Lemma endswith_sep_inv a :
  endswith_sep a = true → ∃ a', a = a' +:+ String sep "".
Proof.
  induction a as [|c a IH]; [done|]. destruct a as [|c' a].
  - simpl. intros ->%sep_eqb. by exists "".
  - rewrite endswith_sep_cons by done. intros [a' ->]%IH.
    by exists (String c a').
Qed.

Lemma join_segments a b :
  startswith_sep b = false →
  segments (posixpath.join a b) = segments a ++ segments b.
Proof.
  intros Hb. unfold posixpath.join. rewrite Hb.
  destruct (negb (truthy a) || endswith_sep a) eqn:E;
    [|by rewrite segments_app_sep].
  destruct (truthy a) eqn:Ha; [|by apply truthy_false in Ha as ->].
  apply endswith_sep_inv in E as [a' ->].
  rewrite append_assoc, append_cons, append_nil_l.
  rewrite !segments_app_sep. by rewrite segments_nil, app_nil_r.
Qed.

Lemma join_truthy a b : truthy a = true → truthy (posixpath.join a b) = true.
Proof.
  intros Ha. unfold posixpath.join. destruct b as [|c b]; simpl.
  - by destruct (negb (truthy a) || endswith_sep a); apply truthy_append.
  - destruct (Ascii.eqb c sep); [done|].
    by destruct (negb (truthy a) || endswith_sep a); apply truthy_append.
Qed.

Lemma join_startswith a b :
  startswith_sep b = false → truthy a = true →
  startswith_sep (posixpath.join a b) = startswith_sep a.
Proof.
  intros Hb Ha. unfold posixpath.join. rewrite Hb.
  by destruct (negb (truthy a) || endswith_sep a);
    apply startswith_sep_append.
Qed.

Lemma has_sep_startswith f : has_sep f = false → startswith_sep f = false.
Proof. destruct f as [|c f]; [done|]. simpl. by intros [? ?]%orb_false_elim. Qed.

(** A file name without separator, joined to a folder. *)
Lemma join_file_endswith a f :
  has_sep f = false → truthy a = true →
  endswith_sep (posixpath.join a f) = negb (truthy f).
Proof.
  intros Hf Ha. unfold posixpath.join.
  rewrite (has_sep_startswith f Hf).
  destruct f as [|c f]; simpl.
  - rewrite Ha. simpl. destruct (endswith_sep a) eqn:E.
    + by rewrite append_nil_r.
    + apply endswith_sep_append_sep.
  - destruct (negb (truthy a) || endswith_sep a).
    + rewrite endswith_sep_append by done. by apply endswith_sep_no_sep.
    + rewrite endswith_sep_append by done.
      rewrite endswith_sep_cons by done. by apply endswith_sep_no_sep.
Qed.

(** ** Lookups *)

Lemma lookup_step_proper cur c :
  special c = false → lookup_step cur c = cur ++ [c].
Proof.
  unfold special, lookup_step. intros [H1 H2]%orb_false_elim.
  apply bool_decide_eq_false in H1, H2. by rewrite !decide_False.
Qed.

Lemma lookup_step_dot cur : lookup_step cur dot = cur.
Proof. reflexivity. Qed.

Lemma lookup_step_dotdot cur : lookup_step cur dotdot = removelast cur.
Proof. reflexivity. Qed.

Lemma special_cases c : special c = true → c = dot ∨ c = dotdot.
Proof.
  unfold special. intros [H|H]%orb_prop; apply bool_decide_eq_true in H; auto.
Qed.

Lemma lookup_step_prefix cur c : c ≠ dotdot → cur `prefix_of` lookup_step cur c.
Proof.
  intros Hc. unfold lookup_step. destruct (decide (c = dot)); [done|].
  rewrite decide_False by done. by apply prefix_app_r.
Qed.

Lemma foldl_lookup_step_prefix cur cs :
  dotdot ∉ cs → cur `prefix_of` foldl lookup_step cur cs.
Proof.
  revert cur. induction cs as [|c cs IH]; intros cur Hcs; simpl; [done|].
  apply not_elem_of_cons in Hcs as [Hc Hcs].
  etrans; [by apply lookup_step_prefix|]. by apply IH.
Qed.

Lemma walk_app t cur xs ys :
  walk t cur (xs ++ ys) =
  match walk t cur xs with
  | inr k => walk t k ys
  | inl e => inl e
  end.
Proof.
  revert cur. induction xs as [|x xs IH]; intros cur; simpl; [done|].
  destruct (t !! cur) as [[|d]|]; auto.
Qed.

Lemma walk_norm t cur cs k :
  walk t cur cs = inr k → k = foldl lookup_step cur cs.
Proof.
  revert cur. induction cs as [|c cs IH]; intros cur; simpl; [congruence|].
  destruct (t !! cur) as [[|d]|]; [apply IH|done..].
Qed.

Lemma walk_err t cur cs e :
  walk t cur cs = inl e → e = ENOENT ∨ e = ENOTDIR.
Proof.
  revert cur. induction cs as [|c cs IH]; intros cur; simpl; [done|].
  destruct (t !! cur) as [[|d]|]; [apply IH|intros [= <-]; auto..].
Qed.

Lemma walk_snoc t cur cs c k :
  walk t cur (cs ++ [c]) = inr k ↔
  ∃ kd, walk t cur cs = inr kd ∧ t !! kd = Some Dir ∧ k = lookup_step kd c.
Proof.
  rewrite walk_app. destruct (walk t cur cs) as [e|kd]; simpl.
  - split; [done|]. by intros (? & ? & _).
  - split.
    + destruct (t !! kd) as [[|d]|] eqn:E; [|done..].
      intros [= <-]. eauto.
    + intros (? & [= <-] & -> & ->). done.
Qed.

(** A lookup that succeeds keeps succeeding while directories stay. *)
Lemma walk_mono t t' cur cs k :
  (∀ key, t !! key = Some Dir → t' !! key = Some Dir) →
  walk t cur cs = inr k → walk t' cur cs = inr k.
Proof.
  intros Hd. revert cur. induction cs as [|c cs IH]; intros cur; simpl; [done|].
  destruct (t !! cur) as [[|d]|] eqn:E; [|done..].
  rewrite (Hd _ E). apply IH.
Qed.

(** Every directory a successful lookup passes is on the way to its
    result, when no name is [".."]. *)
Lemma walk_back t t' cur cs k d :
  dotdot ∉ cs →
  walk t' cur cs = inr k →
  t' !! k = Some (File d) →
  (∀ k', k' `prefix_of` k → k' ≠ k → t !! k' = Some Dir) →
  walk t cur cs = inr k.
Proof.
  intros Hcs Hw Hk Hanc. revert cur Hcs Hw.
  induction cs as [|c cs IH]; intros cur Hcs; simpl; [done|].
  apply not_elem_of_cons in Hcs as [Hc Hcs].
  destruct (t' !! cur) as [[|d']|] eqn:E; [|done..]. intros Hw.
  assert (Hpre : cur `prefix_of` k).
  { rewrite (walk_norm _ _ _ _ Hw).
    etrans; [by apply lookup_step_prefix|]. by apply foldl_lookup_step_prefix. }
  rewrite (Hanc cur Hpre) by congruence. by apply IH.
Qed.

(** ** Well-formed file systems *)

Lemma wf_ancestors s k k' :
  wf_fs s → is_Some (tree s !! k) → k' `prefix_of` k → k' ≠ k →
  tree s !! k' = Some Dir.
Proof.
  intros (_ & _ & Hwf) Hk [suf ->]. revert Hk.
  induction suf as [|x suf IH] using rev_ind.
  { rewrite app_nil_r. done. }
  intros Hk _. specialize (Hwf _ Hk).
  rewrite app_assoc, removelast_last in Hwf.
  destruct suf as [|y suf _] using rev_ind.
  { by rewrite app_nil_r in Hwf. }
  apply IH; [by rewrite Hwf|].
  intros E. apply (f_equal length) in E. rewrite !length_app in E. simpl in E. lia.
Qed.

Lemma wf_removelast s k :
  wf_fs s → tree s !! k = Some Dir → tree s !! removelast k = Some Dir.
Proof. intros (_ & _ & Hwf) Hk. apply Hwf. by rewrite Hk. Qed.

Lemma wf_lookup_step s kd c :
  wf_fs s → tree s !! kd = Some Dir → special c = true →
  tree s !! lookup_step kd c = Some Dir.
Proof.
  intros Hwf Hkd [->| ->]%special_cases; [done|].
  rewrite lookup_step_dotdot. by apply wf_removelast.
Qed.

Lemma wf_start s p : wf_fs s → tree s !! start s p = Some Dir.
Proof. intros (? & ? & _). unfold start. by destruct (startswith_sep p). Qed.

(** ** Path resolution and the calls *)

Lemma namei_truthy s p k : namei s p = inr k → truthy p = true.
Proof. unfold namei. by destruct (truthy p). Qed.

Lemma namei_walk s p k :
  namei s p = inr k ↔
  truthy p = true ∧ walk (tree s) (start s p) (segments p) = inr k.
Proof.
  unfold namei. destruct (truthy p); [tauto|].
  split; [done|]. by intros [? _].
Qed.

Lemma namei_norm s p k : namei s p = inr k → k = norm s p.
Proof. intros [_ H]%namei_walk. by apply walk_norm in H. Qed.

Lemma namei_err s p e : namei s p = inl e → e = ENOENT ∨ e = ENOTDIR.
Proof.
  unfold namei. destruct (truthy p); [apply walk_err|]. intros [= <-]. auto.
Qed.

Lemma namei_last s p k c :
  namei s p = inr k → last (segments p) = Some c →
  ∃ init kd, segments p = init ++ [c] ∧
    walk (tree s) (start s p) init = inr kd ∧
    tree s !! kd = Some Dir ∧ k = lookup_step kd c.
Proof.
  intros [_ Hw]%namei_walk [init E]%last_Some. rewrite E in Hw.
  apply walk_snoc in Hw as (kd & ? & ? & ?). eauto 10.
Qed.

Lemma namei_no_last s p k :
  namei s p = inr k → last (segments p) = None → k = [].
Proof.
  intros [Hp Hw]%namei_walk E%last_None. rewrite E in Hw. simpl in Hw.
  unfold start in Hw. rewrite segments_nil_startswith in Hw by done.
  congruence.
Qed.

Lemma isdir_iff s p :
  os.path.isdir s p = true ↔ ∃ k, namei s p = inr k ∧ tree s !! k = Some Dir.
Proof.
  unfold os.path.isdir, sys.stat. destruct (namei s p) as [e|k].
  { split; [done|]. by intros (? & ? & _). }
  split.
  - destruct (tree s !! k) as [[|d]|] eqn:E; [by eauto|..|done].
    by destruct (endswith_sep p).
  - intros (? & [= <-] & ->). done.
Qed.

Lemma exists_iff s p :
  os.path.exists_ s p = true ↔
  ∃ k n, namei s p = inr k ∧ tree s !! k = Some n ∧
         (n = Dir ∨ endswith_sep p = false).
Proof.
  unfold os.path.exists_, sys.stat. destruct (namei s p) as [e|k].
  { split; [done|]. by intros (? & ? & ? & _). }
  split.
  - destruct (tree s !! k) as [[|d]|] eqn:E; [by eauto 10| |done].
    destruct (endswith_sep p) eqn:E'; [done|]. eauto 10.
  - intros (? & n & [= <-] & -> & Hn). destruct n; [done|].
    destruct Hn as [?| ->]; done.
Qed.

Lemma file_content_iff s p d :
  file_content s p = Some d ↔
  ∃ k, namei s p = inr k ∧ tree s !! k = Some (File d) ∧
       endswith_sep p = false.
Proof.
  unfold file_content, sys.stat. destruct (namei s p) as [e|k].
  { split; [done|]. by intros (? & ? & _). }
  split.
  - destruct (tree s !! k) as [[|d']|] eqn:E; [done| |done].
    destruct (endswith_sep p) eqn:E'; [done|]. intros [= <-]. eauto.
  - intros (? & [= <-] & -> & ->). done.
Qed.

Lemma mkdir_inr s p s' :
  sys.mkdir s p = inr s' →
  ∃ k c, namei s p = inr k ∧ last (segments p) = Some c ∧
    special c = false ∧ tree s !! k = None ∧
    s' = mkFS (cwd s) (<[k := Dir]> (tree s)).
Proof.
  unfold sys.mkdir. destruct (namei s p) as [e|k]; [done|].
  destruct (last (segments p)) as [c|]; [|done].
  destruct (special c) eqn:Hc; [done|].
  destruct (tree s !! k) eqn:Hk; [done|]. intros [= <-]. eauto 10.
Qed.

Lemma mkdir_present s p k :
  namei s p = inr k → is_Some (tree s !! k) → sys.mkdir s p = inl EEXIST.
Proof.
  intros Hn [n Hk]. unfold sys.mkdir. rewrite Hn.
  destruct (last (segments p)) as [c|]; [|done].
  destruct (special c); [done|]. by rewrite Hk.
Qed.

Lemma mkdir_EEXIST s p :
  sys.mkdir s p = inl EEXIST →
  ∃ k, namei s p = inr k ∧
    (last (segments p) = None ∨
     (∃ c, last (segments p) = Some c ∧ special c = true) ∨
     is_Some (tree s !! k)).
Proof.
  unfold sys.mkdir. destruct (namei s p) as [e|k] eqn:Hn.
  { intros [= E]. subst e. by destruct (namei_err _ _ _ Hn). }
  intros H. exists k. split; [done|].
  destruct (last (segments p)) as [c|]; [|by left].
  destruct (special c) eqn:Hc; [by eauto|].
  destruct (tree s !! k) eqn:Hk; [by eauto|done].
Qed.

Lemma open_trunc_inr s p fd s' :
  sys.open_trunc s p = inr (fd, s') →
  namei s p = inr fd ∧ endswith_sep p = false ∧ tree s !! fd ≠ Some Dir ∧
  (∃ c, last (segments p) = Some c ∧ special c = false) ∧
  s' = mkFS (cwd s) (<[fd := File ""]> (tree s)).
Proof.
  unfold sys.open_trunc. destruct (namei s p) as [e|k]; [done|].
  destruct (endswith_sep p); [done|].
  destruct (last (segments p)) as [c|]; [|done].
  destruct (special c) eqn:Hc; [done|].
  destruct (tree s !! k) as [[|d]|] eqn:Hk; [done|..];
    intros [= <- <-]; split_and!; eauto; congruence.
Qed.

Lemma open_trunc_inl s p e :
  sys.open_trunc s p = inl e → namei s p = inl e ∨ e = EISDIR.
Proof.
  unfold sys.open_trunc. destruct (namei s p) as [e'|k]; [left; congruence|].
  destruct (endswith_sep p); [intros [= <-]; by right|].
  destruct (last (segments p)) as [c|]; [|intros [= <-]; by right].
  destruct (special c); [intros [= <-]; by right|].
  destruct (tree s !! k) as [[|d]|]; [intros [= <-]; by right|done..].
Qed.

Lemma write_nothing s k :
  tree s !! k = Some (File "") → sys.write s k "" = s.
Proof.
  intros Hk. unfold sys.write. destruct s as [c t]. simpl in *. f_equal.
  apply map_eq. intros j. rewrite lookup_alter.
  destruct (decide (k = j)) as [<-|]; [|done]. by rewrite Hk.
Qed.

(** Creating a file either fails in [open] and changes nothing, or leaves
    the empty file in place. *)
Lemma create_file_inv p s r s' :
  run_action (CreateFile p) s = (r, s') →
  (∃ e, sys.open_trunc s p = inl e ∧ r = Raise (mkOSError e p) ∧ s' = s) ∨
  (∃ k, sys.open_trunc s p = inr (k, s') ∧ r = Return tt ∧
        s' = mkFS (cwd s) (<[k := File ""]> (tree s))).
Proof.
  simpl. unfold mbind, io_bind, open_w, file_write.
  destruct (sys.open_trunc s p) as [e|[k s1]] eqn:E.
  - intros [= <- <-]. left. eauto.
  - intros [= <- <-]. right. exists k.
    apply open_trunc_inr in E as (_ & _ & _ & _ & ->).
    rewrite write_nothing by apply lookup_insert_eq. done.
Qed.

(** ** [makedirs] *)

Lemma makedirs_body_eq name exist_ok :
  makedirs name exist_ok =
  os.makedirs_body (λ h, makedirs h exist_ok) name exist_ok.
Proof.
  simp makedirs.
  destruct (Logic.inspect (os.head_tail name)) as [[h t] E]. simpl.
  destruct (bool_dec (truthy h && truthy t) true) as [G|G]; simpl;
    unfold os.makedirs_body; rewrite E; [done|].
  apply not_true_is_false in G. by rewrite G.
Qed.

(** Induction along the recursive calls of [makedirs]. *)
Lemma makedirs_induction (P : string → Prop) :
  (∀ name,
     (∀ hd tl, os.head_tail name = (hd, tl) →
        truthy hd = true → truthy tl = true → P hd) →
     P name) →
  ∀ name, P name.
Proof.
  intros H name. funelim (makedirs name true).
  - match goal with IH : string → filesystem → _ |- _ =>
      specialize (IH "" (mkFS [] ∅)); rename IH into IHhd end.
    match goal with HP : ∀ name : string, _ → ?P name |- ?P _ =>
      apply HP; intros hd' tl' E _ _; rewrite Hsplit in E;
      injection E as <- <-; by apply IHhd end.
  - match goal with HP : ∀ name : string, _ → ?P name |- ?P _ =>
      apply HP; intros hd' tl' E Hh Ht; rewrite Hsplit in E;
      injection E as <- <- end.
    match goal with Hn : _ ≠ true |- _ => destruct Hn; by rewrite Hh, Ht end.
Qed.

Lemma mkdir_exist_ok_inv name s r s' :
  os.mkdir_exist_ok true name s = (r, s') →
  (sys.mkdir s name = inr s' ∧ r = Return tt) ∨
  (∃ e, sys.mkdir s name = inl e ∧ s' = s ∧
     ((os.path.isdir s name = true ∧ r = Return tt) ∨
      (os.path.isdir s name = false ∧ r = Raise (mkOSError e name)))).
Proof.
  unfold os.mkdir_exist_ok, try_except, os.mkdir.
  destruct (sys.mkdir s name) as [e|s1].
  - simpl. destruct (os.path.isdir s name); simpl;
      intros [= <- <-]; right; eauto 10.
  - intros [= <- <-]. by left.
Qed.

(** The ways through the body of [makedirs]. *)
Lemma makedirs_inv name s r s' :
  makedirs name true s = (r, s') →
  ∃ hd tl, os.head_tail name = (hd, tl) ∧
    ((truthy hd && truthy tl && negb (os.path.exists_ s hd) = false ∧
      os.mkdir_exist_ok true name s = (r, s')) ∨
     (truthy hd = true ∧ truthy tl = true ∧ os.path.exists_ s hd = false ∧
      ∃ r1 s1, makedirs hd true s = (r1, s1) ∧
        ((∃ e, r1 = Raise e ∧ err e ≠ EEXIST ∧ r = Raise e ∧ s' = s1) ∨
         ((r1 = Return tt ∨ ∃ e, r1 = Raise e ∧ err e = EEXIST) ∧
          ((tl = dot ∧ r = Return tt ∧ s' = s1) ∨
           (tl ≠ dot ∧ os.mkdir_exist_ok true name s1 = (r, s'))))))).
Proof.
  rewrite makedirs_body_eq. unfold os.makedirs_body.
  destruct (os.head_tail name) as [hd tl] eqn:E. exists hd, tl.
  split; [done|].
  destruct (truthy hd && truthy tl && negb (os.path.exists_ s hd)) eqn:G.
  2:{ left. by split. }
  right. apply andb_prop in G as [[Hh Ht]%andb_prop Hx].
  apply negb_true_iff in Hx. split_and!; [done..|].
  revert H. unfold mbind, io_bind, try_except.
  destruct (makedirs hd true s) as [[[]|e] s1] eqn:E1.
  - intros H. exists (Return tt), s1. split; [done|]. right.
    split; [by left|]. unfold mret, io_ret in H.
    destruct (bool_decide (tl = dot)) eqn:D.
    + apply bool_decide_eq_true in D. left. by injection H as <- <-.
    + apply bool_decide_eq_false in D. by right.
  - exists (Raise e), s1. split; [done|].
    unfold is_FileExistsError in H.
    destruct (bool_decide (err e = EEXIST)) eqn:X.
    + apply bool_decide_eq_true in X. right. split; [by eauto|].
      unfold mret, io_ret in H.
      destruct (bool_decide (tl = dot)) eqn:D.
      * apply bool_decide_eq_true in D. left. by injection H as <- <-.
      * apply bool_decide_eq_false in D. by right.
    + apply bool_decide_eq_false in X. left. exists e.
      unfold raise in H. by injection H as <- <-.
Qed.

(** ** How the calls change the file system *)

Lemma adds_dirs_refl s : adds_dirs s s.
Proof. split; [done|]. by left. Qed.

Lemma adds_dirs_trans s1 s2 s3 :
  adds_dirs s1 s2 → adds_dirs s2 s3 → adds_dirs s1 s3.
Proof.
  intros [Hc1 H1] [Hc2 H2]. split; [congruence|]. intros k.
  destruct (H1 k) as [E1|[E1 E1']], (H2 k) as [E2|[E2 E2']].
  - left. congruence.
  - destruct (tree s1 !! k) eqn:E; [congruence|]. by right.
  - right. split; congruence.
  - congruence.
Qed.

Lemma grows_refl s : grows s s.
Proof. split; [done|]. intros k. destruct (tree s !! k) as [[|d]|]; auto. Qed.

Lemma grows_trans s1 s2 s3 : grows s1 s2 → grows s2 s3 → grows s1 s3.
Proof.
  intros [Hc1 H1] [Hc2 H2]. split; [congruence|]. intros k.
  specialize (H1 k). specialize (H2 k).
  destruct (tree s1 !! k) as [[|d]|]; [by rewrite H1 in H2| |done].
  destruct H1 as [H1|H1]; rewrite H1 in H2; [done|].
  right. by destruct H2.
Qed.

Lemma adds_dirs_grows s s' : adds_dirs s s' → grows s s'.
Proof.
  intros [Hc H]. split; [done|]. intros k.
  destruct (H k) as [E|[E E']]; [|by rewrite E].
  rewrite <- E. destruct (tree s' !! k) as [[|d]|]; auto.
Qed.

Lemma adds_dirs_file s s' k d :
  adds_dirs s s' → tree s' !! k = Some (File d) → tree s !! k = Some (File d).
Proof. intros [_ H] Hk. destruct (H k) as [E|[_ E]]; congruence. Qed.

Lemma grows_dir s s' k :
  grows s s' → tree s !! k = Some Dir → tree s' !! k = Some Dir.
Proof. intros [_ H] Hk. specialize (H k). by rewrite Hk in H. Qed.

Lemma grows_start s s' p : grows s s' → start s' p = start s p.
Proof. intros [Hc _]. unfold start. by rewrite Hc. Qed.

Lemma grows_namei s s' p k :
  grows s s' → namei s p = inr k → namei s' p = inr k.
Proof.
  intros Hg [Hp Hw]%namei_walk. apply namei_walk. split; [done|].
  rewrite (grows_start _ _ _ Hg).
  eapply walk_mono; [|done]. intros key. by apply grows_dir.
Qed.

Lemma grows_isdir s s' p :
  grows s s' → os.path.isdir s p = true → os.path.isdir s' p = true.
Proof.
  intros Hg (k & Hn & Hk)%isdir_iff. apply isdir_iff. exists k.
  split; [by eapply grows_namei|by eapply grows_dir].
Qed.

Lemma grows_file_empty s s' p :
  grows s s' → file_content s p = Some "" → file_content s' p = Some "".
Proof.
  intros Hg (k & Hn & Hk & He)%file_content_iff. apply file_content_iff.
  exists k. split_and!; [by eapply grows_namei| |done].
  destruct Hg as [_ Hg]. specialize (Hg k). rewrite Hk in Hg. by destruct Hg.
Qed.

Lemma grows_is_file s s' p d :
  grows s s' → file_content s p = Some d →
  ∃ d', file_content s' p = Some d'.
Proof.
  intros Hg (k & Hn & Hk & He)%file_content_iff.
  pose proof (grows_namei _ _ _ _ Hg Hn) as Hn'.
  destruct Hg as [_ Hg]. specialize (Hg k). rewrite Hk in Hg.
  destruct Hg as [Hg|Hg]; eexists; apply file_content_iff; eauto.
Qed.

Lemma adds_dirs_insert s k :
  tree s !! k = None → adds_dirs s (mkFS (cwd s) (<[k := Dir]> (tree s))).
Proof.
  intros Hk. split; [done|]. intros j. simpl.
  destruct (decide (k = j)) as [<-|Hne].
  - right. by rewrite lookup_insert_eq.
  - left. by rewrite lookup_insert_ne.
Qed.

Lemma grows_insert_file s k :
  tree s !! k ≠ Some Dir →
  grows s (mkFS (cwd s) (<[k := File ""]> (tree s))).
Proof.
  intros Hk. split; [done|]. intros j. simpl.
  destruct (decide (k = j)) as [<-|Hne].
  - rewrite lookup_insert_eq. destruct (tree s !! k) as [[|d]|]; auto. done.
  - rewrite lookup_insert_ne by done. destruct (tree s !! j) as [[|d]|]; auto.
Qed.

Lemma wf_insert s k n :
  wf_fs s → tree s !! k ≠ Some Dir → tree s !! removelast k = Some Dir →
  wf_fs (mkFS (cwd s) (<[k := n]> (tree s))).
Proof.
  intros (Hroot & Hcwd & Hpar) Hk Hp.
  assert (Hne : ∀ j, tree s !! j = Some Dir → k ≠ j) by (intros j ? ->; done).
  split_and!; simpl.
  - rewrite lookup_insert_ne; [done|by apply Hne].
  - rewrite lookup_insert_ne; [done|by apply Hne].
  - intros j Hj. destruct (decide (k = j)) as [<-|Hkj].
    + rewrite lookup_insert_ne; [done|by apply Hne].
    + rewrite lookup_insert_ne in Hj by done.
      rewrite lookup_insert_ne; [by apply Hpar|]. apply Hne. by apply Hpar.
Qed.

Lemma namei_new_parent s p k c :
  namei s p = inr k → last (segments p) = Some c → special c = false →
  tree s !! removelast k = Some Dir.
Proof.
  intros Hn Hl Hc. destruct (namei_last _ _ _ _ Hn Hl) as (i & kd & _ & _ & Hkd & ->).
  by rewrite lookup_step_proper, removelast_last.
Qed.

Lemma mkdir_adds_dirs s p s' : sys.mkdir s p = inr s' → adds_dirs s s'.
Proof.
  intros (k & c & _ & _ & _ & Hk & ->)%mkdir_inr. by apply adds_dirs_insert.
Qed.

Lemma mkdir_wf s p s' : sys.mkdir s p = inr s' → wf_fs s → wf_fs s'.
Proof.
  intros (k & c & Hn & Hl & Hc & Hk & ->)%mkdir_inr Hwf.
  apply wf_insert; [done|congruence|by eapply namei_new_parent].
Qed.

Lemma mkdir_isdir s p s' : sys.mkdir s p = inr s' → os.path.isdir s' p = true.
Proof.
  intros H. pose proof (mkdir_adds_dirs _ _ _ H) as Ha.
  apply mkdir_inr in H as (k & c & Hn & _ & _ & _ & ->).
  apply isdir_iff. exists k. split; [|by apply lookup_insert_eq].
  eapply grows_namei; [|done]. by apply adds_dirs_grows.
Qed.

Lemma create_file_grows p s r s' :
  run_action (CreateFile p) s = (r, s') → grows s s'.
Proof.
  intros [(e & _ & _ & ->)|(k & Ho & _ & ->)]%create_file_inv;
    [apply grows_refl|].
  apply open_trunc_inr in Ho as (_ & _ & Hk & _ & _).
  by apply grows_insert_file.
Qed.

Lemma create_file_wf p s r s' :
  run_action (CreateFile p) s = (r, s') → wf_fs s → wf_fs s'.
Proof.
  intros [(e & _ & _ & ->)|(k & Ho & _ & ->)]%create_file_inv Hwf; [done|].
  apply open_trunc_inr in Ho as (Hn & _ & Hk & (c & Hl & Hc) & _).
  apply wf_insert; [done..|by eapply namei_new_parent].
Qed.

Lemma create_file_content p s s' :
  run_action (CreateFile p) s = (Return tt, s') → file_content s' p = Some "".
Proof.
  intros H. pose proof (create_file_grows _ _ _ _ H) as Hg.
  apply create_file_inv in H as [(e & _ & ? & _)|(k & Ho & _ & E)]; [done|].
  apply open_trunc_inr in Ho as (Hn & He & _ & _ & _).
  apply file_content_iff. exists k. split_and!; [by eapply grows_namei| |done].
  rewrite E. apply lookup_insert_eq.
Qed.

Lemma start_head s name hd :
  startswith_sep hd = startswith_sep name → start s hd = start s name.
Proof. unfold start. by intros ->. Qed.

(** Resolving a name is resolving its head and looking up its tail. *)
Lemma namei_head_tail s name hd tl k :
  os.head_tail name = (hd, tl) → truthy hd = true → truthy tl = true →
  namei s name = inr k ↔
  ∃ kd, namei s hd = inr kd ∧ tree s !! kd = Some Dir ∧ k = lookup_step kd tl.
Proof.
  intros (Hsep & Hseg & Hst & _ & _)%head_tail_spec Hh Ht.
  destruct (Hst Hh) as [Hsw Hn].
  rewrite (segments_no_sep tl), Ht in Hseg by done.
  rewrite namei_walk, Hseg, walk_snoc, <- (start_head s name hd) by done.
  split.
  - intros (_ & kd & Hw & Hk & ->). exists kd.
    split_and!; [by apply namei_walk|done..].
  - intros (kd & [_ Hw]%namei_walk & Hk & ->). eauto.
Qed.

Lemma plain_head name hd tl :
  os.head_tail name = (hd, tl) → plain name → plain hd.
Proof.
  intros (_ & Hseg & _)%head_tail_spec. unfold plain. rewrite Hseg.
  rewrite not_elem_of_app. tauto.
Qed.

Lemma mkdir_exist_ok_step name s r s' :
  os.mkdir_exist_ok true name s = (r, s') →
  adds_dirs s s' ∧ (wf_fs s → wf_fs s') ∧
  (r = Return tt → os.path.isdir s' name = true) ∧
  (∀ e, r = Raise e →
     s' = s ∧ os.path.isdir s name = false ∧
     ∃ en, sys.mkdir s name = inl en ∧ e = mkOSError en name).
Proof.
  intros [[Hm ->]|(en & Hm & -> & [[Hd ->]|[Hd ->]])]%mkdir_exist_ok_inv.
  - split_and!; [by eapply mkdir_adds_dirs|by eapply mkdir_wf|
                 by intros _; eapply mkdir_isdir|done].
  - split_and!; [apply adds_dirs_refl|done..].
  - split_and!; [apply adds_dirs_refl|done|done|].
    intros e [= <-]. eauto.
Qed.

(** [makedirs] only ever adds directories, and keeps the file system
    well formed. *)
Lemma makedirs_adds_dirs name : ∀ s r s',
  makedirs name true s = (r, s') → adds_dirs s s' ∧ (wf_fs s → wf_fs s').
Proof.
  induction name as [name IH] using makedirs_induction. intros s r s' H.
  apply makedirs_inv in H as (hd & tl & E & [[_ H]|(Hh & Ht & _ & r1 & s1 & H1 & H)]).
  { apply mkdir_exist_ok_step in H. tauto. }
  destruct (IH hd tl E Hh Ht _ _ _ H1) as [Ha Hw].
  destruct H as [(e & _ & _ & _ & ->)|[_ [(_ & _ & ->)|[_ H]]]]; [done..|].
  apply mkdir_exist_ok_step in H as (Ha' & Hw' & _).
  split; [by eapply adds_dirs_trans|auto].
Qed.

Lemma makedirs_grows name s r s' :
  makedirs name true s = (r, s') → grows s s'.
Proof. intros H. apply adds_dirs_grows. by eapply makedirs_adds_dirs. Qed.

Lemma makedirs_wf name s r s' :
  makedirs name true s = (r, s') → wf_fs s → wf_fs s'.
Proof. intros H. by eapply makedirs_adds_dirs. Qed.

(** A [FileExistsError] out of [makedirs] comes from its own [mkdir]. *)
Lemma makedirs_raise_EEXIST name s e s' :
  makedirs name true s = (Raise e, s') → err e = EEXIST →
  sys.mkdir s' name = inl EEXIST ∧ os.path.isdir s' name = false.
Proof.
  intros H He.
  apply makedirs_inv in H as (hd & tl & E & [[_ H]|(Hh & Ht & _ & r1 & s1 & H1 & H)]).
  - apply mkdir_exist_ok_step in H as (_ & _ & _ & H).
    destruct (H e eq_refl) as (-> & Hd & en & Hm & ->). simpl in He.
    by subst en.
  - destruct H as [(e' & _ & Hne & [= <-] & _)|[_ [(_ & ? & _)|[_ H]]]];
      [done..|].
    apply mkdir_exist_ok_step in H as (_ & _ & _ & H).
    destruct (H e eq_refl) as (-> & Hd & en & Hm & ->). simpl in He.
    by subst en.
Qed.

(** On a name that does not exist, whose names are all plain, [makedirs]
    raises no [FileExistsError]. *)
Lemma makedirs_no_EEXIST name s e s' :
  wf_fs s → plain name →
  all_sep name = true ∨ endswith_sep name = false →
  os.path.exists_ s name = false →
  makedirs name true s = (Raise e, s') → err e ≠ EEXIST.
Proof.
  intros Hwf Hplain Hend Hex H He.
  destruct (makedirs_adds_dirs _ _ _ _ H) as [Ha Hwf']. specialize (Hwf' Hwf).
  apply makedirs_raise_EEXIST in H as [Hm Hd]; [|done].
  apply mkdir_EEXIST in Hm as (k & Hn & Hcase).
  assert (Hnd : tree s' !! k ≠ Some Dir).
  { intros Hk. rewrite (proj2 (isdir_iff s' name)) in Hd by eauto. done. }
  destruct Hcase as [Hl|[(c & Hl & Hc)|[n Hk]]].
  - apply (namei_no_last _ _ _ Hn) in Hl as ->. by destruct Hwf' as (? & _).
  - destruct (namei_last _ _ _ _ Hn Hl) as (i & kd & _ & _ & Hkd & ->).
    by apply Hnd, wf_lookup_step.
  - destruct n as [|d]; [done|].
    assert (Hs : tree s !! k = Some (File d)) by by eapply adds_dirs_file.
    apply namei_walk in Hn as [Hp Hw].
    assert (Hn : namei s name = inr k).
    { apply namei_walk. split; [done|].
      rewrite (grows_start s s') in Hw by by apply adds_dirs_grows.
      eapply walk_back; [done..|]. intros k' Hpre Hne.
      eapply wf_ancestors; [done| |done..]. by rewrite Hs. }
    destruct Hend as [Hall|Hend].
    + apply segments_all_sep in Hall.
      apply (namei_no_last s name k) in Hn; [|by rewrite Hall]. subst k.
      destruct Hwf as (? & _). congruence.
    + rewrite (proj2 (exists_iff s name)) in Hex by eauto 10. done.
Qed.

Lemma isdir_head_dot s name hd :
  os.head_tail name = (hd, dot) → truthy hd = true →
  os.path.isdir s hd = true → os.path.isdir s name = true.
Proof.
  intros E Hh (kd & Hn & Hk)%isdir_iff. apply isdir_iff. exists kd.
  split; [|done]. apply (namei_head_tail s name hd dot); [done..|].
  exists kd. by rewrite lookup_step_dot.
Qed.

(** When [makedirs] returns, the name is a directory. *)
Lemma makedirs_isdir name : ∀ s s',
  wf_fs s → plain name →
  makedirs name true s = (Return tt, s') → os.path.isdir s' name = true.
Proof.
  induction name as [name IH] using makedirs_induction.
  intros s s' Hwf Hplain H.
  apply makedirs_inv in H as (hd & tl & E & [[_ H]|(Hh & Ht & Hex & r1 & s1 & H1 & H)]).
  { apply mkdir_exist_ok_step in H. by apply H. }
  destruct H as [(e & _ & _ & ? & _)|[Hr1 [(-> & _ & ->)|[_ H]]]]; [done| |].
  - destruct Hr1 as [->|(e & -> & He)].
    + eapply isdir_head_dot; [done..|].
      eapply IH; [done..|by eapply plain_head|done].
    + exfalso. eapply makedirs_no_EEXIST; [done|by eapply plain_head| |done..].
      apply head_tail_spec in E. tauto.
  - apply mkdir_exist_ok_step in H. by apply H.
Qed.

(** [exist_ok=True]: on a directory, [makedirs] returns and changes
    nothing. *)
Lemma makedirs_existing name s :
  os.path.isdir s name = true → makedirs name true s = (Return tt, s).
Proof.
  intros Hd. pose proof Hd as (k & Hn & Hk)%isdir_iff.
  rewrite makedirs_body_eq. unfold os.makedirs_body.
  destruct (os.head_tail name) as [hd tl] eqn:E.
  assert (G : truthy hd && truthy tl && negb (os.path.exists_ s hd) = false).
  { destruct (truthy hd) eqn:Hh, (truthy tl) eqn:Ht; try done. simpl.
    apply negb_false_iff, exists_iff.
    apply (namei_head_tail s name hd tl k E Hh Ht) in Hn as (kd & ? & ? & _).
    eauto 10. }
  rewrite G. unfold os.mkdir_exist_ok, try_except, os.mkdir.
  rewrite (mkdir_present s name k) by (by rewrite ?Hk). simpl. by rewrite Hd.
Qed.

(** ** The keys along a path *)

Lemma prefix_key_full s p i :
  length (segments p) ≤ i → prefix_key s p i = norm s p.
Proof. intros H. unfold prefix_key, norm. by rewrite take_ge. Qed.

Lemma prefix_key_cwd s s' p i :
  cwd s' = cwd s → prefix_key s' p i = prefix_key s p i.
Proof. intros H. unfold prefix_key, start. by rewrite H. Qed.

Lemma norm_cwd s s' p : cwd s' = cwd s → norm s' p = norm s p.
Proof. intros H. unfold norm, start. by rewrite H. Qed.

Lemma prefix_key_head s name hd tl i :
  os.head_tail name = (hd, tl) → truthy hd = true →
  i ≤ length (segments hd) → prefix_key s name i = prefix_key s hd i.
Proof.
  intros (_ & Hseg & Hst & _)%head_tail_spec Hh Hi.
  destruct (Hst Hh) as [Hsw _]. unfold prefix_key.
  by rewrite Hseg, take_app_le, (start_head s name hd).
Qed.

Lemma clear_path_head s name hd tl :
  os.head_tail name = (hd, tl) → truthy hd = true →
  clear_path s name → clear_path s hd.
Proof.
  intros E Hh Hnc i d.
  destruct (decide (i ≤ length (segments hd))) as [Hi|Hi].
  - rewrite <- (prefix_key_head s name hd tl i) by done. apply Hnc.
  - rewrite prefix_key_full by lia.
    rewrite <- (prefix_key_full s hd (length (segments hd))) by done.
    rewrite <- (prefix_key_head s name hd tl) by done. apply Hnc.
Qed.

Lemma clear_path_at_norm s name d :
  clear_path s name → tree s !! norm s name ≠ Some (File d).
Proof.
  intros Hnc.
  rewrite <- (prefix_key_full s name (length (segments name))) by done.
  apply Hnc.
Qed.

Lemma clear_path_norm s name k d :
  clear_path s name → namei s name = inr k → tree s !! k ≠ Some (File d).
Proof. intros Hnc ->%namei_norm. by apply clear_path_at_norm. Qed.

Lemma mkdir_exist_ok_succeeds name s k :
  wf_fs s → namei s name = inr k → (∀ d, tree s !! k ≠ Some (File d)) →
  ∃ s', os.mkdir_exist_ok true name s = (Return tt, s').
Proof.
  intros Hwf Hn Hk. unfold os.mkdir_exist_ok, try_except, os.mkdir.
  destruct (sys.mkdir s name) as [e|s1] eqn:Hm; [|by eauto].
  simpl. rewrite (proj2 (isdir_iff s name)); [by eauto|].
  exists k. split; [done|].
  unfold sys.mkdir in Hm. rewrite Hn in Hm.
  destruct (last (segments name)) as [c|] eqn:Hl.
  - destruct (namei_last _ _ _ _ Hn Hl) as (i & kd & _ & _ & Hkd & ->).
    destruct (special c) eqn:Hc; [by apply wf_lookup_step|].
    destruct (tree s !! lookup_step kd c) as [[|d]|] eqn:E; [done| |done].
    by destruct (Hk d).
  - apply (namei_no_last _ _ _ Hn) in Hl as ->. by destruct Hwf as (? & _).
Qed.

(** The name resolves when its head does not make the guard of
    [makedirs] true. *)
Lemma namei_guard_false s name hd tl :
  wf_fs s → clear_path s name → truthy name = true →
  os.head_tail name = (hd, tl) →
  truthy hd && truthy tl && negb (os.path.exists_ s hd) = false →
  ∃ k, namei s name = inr k.
Proof.
  intros Hwf Hnc Hname E G.
  destruct (truthy hd) eqn:Hh, (truthy tl) eqn:Ht; simpl in G.
  - apply negb_false_iff, exists_iff in G as (kd & n & Hn & Hk & _).
    exists (lookup_step kd tl).
    apply (namei_head_tail s name hd tl _ E Hh Ht). exists kd.
    split_and!; [done| |done]. destruct n as [|d]; [done|].
    exfalso. eapply (clear_path_norm s hd); [|done..].
    by eapply clear_path_head.
  - apply head_tail_spec in E as (_ & _ & _ & _ & Hnil).
    exists (start s name). apply namei_walk. by rewrite Hnil.
  - apply head_tail_spec in E as (Hsep & Hseg & _).
    apply truthy_false in Hh as ->.
    rewrite segments_nil, app_nil_l, (segments_no_sep tl), Ht in Hseg by done.
    exists (lookup_step (start s name) tl). apply namei_walk.
    split; [done|]. rewrite Hseg. simpl. by rewrite wf_start.
  - apply head_tail_spec in E as (_ & _ & _ & _ & Hnil).
    exists (start s name). apply namei_walk. by rewrite Hnil.
Qed.

(** Where no leading part of the name is a regular file, [makedirs]
    returns and the name is a directory. *)
Lemma makedirs_clear name : ∀ s,
  wf_fs s → truthy name = true → clear_path s name →
  ∃ s', makedirs name true s = (Return tt, s') ∧
        os.path.isdir s' name = true.
Proof.
  induction name as [name IH] using makedirs_induction.
  intros s Hwf Hname Hnc.
  destruct (makedirs name true s) as [r s'] eqn:H. exists s'.
  apply makedirs_inv in H
    as (hd & tl & E & [[G H]|(Hh & Ht & Hex & r1 & s1 & H1 & H)]).
  { destruct (namei_guard_false s name hd tl) as [k Hn]; [done..|].
    destruct (mkdir_exist_ok_succeeds name s k) as [s'' Hs]; [done..| |].
    { intros d. by eapply clear_path_norm. }
    rewrite H in Hs. injection Hs as -> <-. split; [done|].
    apply mkdir_exist_ok_step in H. by apply H. }
  destruct (IH hd tl E Hh Ht s) as (s1' & H1' & Hdir);
    [done|done|by eapply clear_path_head|].
  rewrite H1 in H1'. injection H1' as -> <-.
  destruct H as [(e & ? & _)|[_ [(-> & -> & ->)|[_ H]]]]; [done| |].
  { split; [done|]. by eapply isdir_head_dot. }
  pose proof Hdir as (kd & Hn & Hkd)%isdir_iff.
  destruct (makedirs_adds_dirs _ _ _ _ H1) as [Ha Hwf1].
  assert (Hn1 : namei s1 name = inr (lookup_step kd tl)).
  { apply (namei_head_tail s1 name hd tl _ E Hh Ht). eauto. }
  destruct (mkdir_exist_ok_succeeds name s1 (lookup_step kd tl))
    as [s'' Hs]; [by auto|done| |].
  - intros d Hk. apply (adds_dirs_file s s1) in Hk; [|done].
    apply namei_norm in Hn1. rewrite (norm_cwd s s1) in Hn1 by apply Ha.
    rewrite Hn1 in Hk. by eapply clear_path_at_norm.
  - rewrite H in Hs. injection Hs as -> <-. split; [done|].
    apply mkdir_exist_ok_step in H. by apply H.
Qed.

(** ** What a call may touch *)

Lemma mkdir_exist_ok_frame name s r s' k :
  os.mkdir_exist_ok true name s = (r, s') →
  tree s' !! k ≠ tree s !! k →
  1 ≤ length (segments name) ∧ k = norm s name.
Proof.
  intros [[Hm _]|(en & _ & -> & _)]%mkdir_exist_ok_inv Hk; [|done].
  apply mkdir_inr in Hm as (k0 & c & Hn & [i Hl]%last_Some & _ & _ & ->).
  simpl in Hk. destruct (decide (k0 = k)) as [<-|Hne].
  - split; [|by apply namei_norm]. rewrite Hl, length_app. simpl. lia.
  - by rewrite lookup_insert_ne in Hk.
Qed.

Lemma makedirs_frame name : ∀ s r s' k,
  makedirs name true s = (r, s') →
  tree s' !! k ≠ tree s !! k →
  ∃ i, 1 ≤ i ≤ length (segments name) ∧ k = prefix_key s name i.
Proof.
  induction name as [name IH] using makedirs_induction. intros s r s' k H Hk.
  assert (Hlast : ∀ s1, cwd s1 = cwd s →
    1 ≤ length (segments name) ∧ k = norm s1 name →
    ∃ i, 1 ≤ i ≤ length (segments name) ∧ k = prefix_key s name i).
  { intros s1 Hc [Hlen ->]. exists (length (segments name)).
    split; [lia|]. by rewrite prefix_key_full, (norm_cwd s s1). }
  apply makedirs_inv in H
    as (hd & tl & E & [[_ H]|(Hh & Ht & _ & r1 & s1 & H1 & H)]).
  { apply (Hlast s); [done|]. by eapply mkdir_exist_ok_frame. }
  assert (Hhd : tree s1 !! k ≠ tree s !! k →
    ∃ i, 1 ≤ i ≤ length (segments name) ∧ k = prefix_key s name i).
  { intros Hk1. destruct (IH hd tl E Hh Ht _ _ _ k H1 Hk1) as (i & Hi & ->).
    exists i. rewrite (prefix_key_head s name hd tl) by (done || lia).
    split; [|done]. apply head_tail_spec in E as (_ & -> & _).
    rewrite length_app. lia. }
  destruct H as [(e & _ & _ & _ & ->)|[_ [(_ & _ & ->)|[_ H]]]]; [by auto..|].
  destruct (decide (tree s1 !! k = tree s !! k)) as [Heq|Hne]; [|by auto].
  apply (Hlast s1); [by apply (makedirs_adds_dirs _ _ _ _ H1)|].
  eapply mkdir_exist_ok_frame; [done|]. by rewrite Heq.
Qed.

Lemma create_file_frame p s r s' k :
  run_action (CreateFile p) s = (r, s') →
  tree s' !! k ≠ tree s !! k → k = norm s p.
Proof.
  intros [(e & _ & _ & ->)|(k0 & Ho & _ & ->)]%create_file_inv Hk; [done|].
  apply open_trunc_inr in Ho as (Hn & _). simpl in Hk.
  destruct (decide (k0 = k)) as [<-|Hne]; [by apply namei_norm|].
  by rewrite lookup_insert_ne in Hk.
Qed.

(** ** One step of the run *)

Lemma run_action_grows a s r s' : run_action a s = (r, s') → grows s s'.
Proof.
  destruct a as [p|p]; [apply makedirs_grows|apply create_file_grows].
Qed.

Lemma run_action_wf a s r s' : run_action a s = (r, s') → wf_fs s → wf_fs s'.
Proof.
  destruct a as [p|p]; [apply makedirs_wf|apply create_file_wf].
Qed.

Lemma elem_of_prefix_keys s p k :
  k ∈ prefix_keys s p ↔
  ∃ i, 1 ≤ i ≤ length (segments p) ∧ k = prefix_key s p i.
Proof.
  unfold prefix_keys. rewrite list_elem_of_In, in_map_iff.
  setoid_rewrite in_seq. split.
  - intros (i & <- & Hi). exists i. split; [lia|done].
  - intros (i & Hi & ->). exists i. split; [done|lia].
Qed.

Lemma run_action_frame a s r s' k :
  run_action a s = (r, s') → tree s' !! k ≠ tree s !! k → k ∈ action_keys s a.
Proof.
  destruct a as [p|p]; simpl.
  - intros H Hk. apply elem_of_prefix_keys. by eapply makedirs_frame.
  - intros H Hk. apply list_elem_of_singleton. by eapply create_file_frame.
Qed.

Lemma action_keys_cwd s s' a :
  cwd s' = cwd s → action_keys s' a = action_keys s a.
Proof.
  intros H. destruct a as [p|p]; simpl.
  - unfold prefix_keys. apply map_ext. intros i. by apply prefix_key_cwd.
  - by rewrite (norm_cwd s s').
Qed.

(** ** The loops *)

Lemma for_each_cons {A} (x : A) l f s :
  for_each (x :: l) f s =
  match f x s with
  | (Return _, s1) => for_each l f s1
  | (Raise e, s1) => (Raise e, s1)
  end.
Proof. reflexivity. Qed.

Lemma for_each_app {A} (l1 l2 : list A) f s :
  for_each (l1 ++ l2) f s =
  match for_each l1 f s with
  | (Return _, s1) => for_each l2 f s1
  | (Raise e, s1) => (Raise e, s1)
  end.
Proof.
  revert s. induction l1 as [|x l1 IH]; intros s; [done|].
  rewrite <- app_comm_cons, !for_each_cons.
  destruct (f x s) as [[[]|e] s1]; [apply IH|done].
Qed.

Lemma for_each_map {A B} (g : A → B) l f s :
  for_each (map g l) f s = for_each l (λ x, f (g x)) s.
Proof.
  revert s. induction l as [|x l IH]; intros s; [done|].
  simpl map. rewrite !for_each_cons.
  destruct (f (g x) s) as [[[]|e] s1]; [apply IH|done].
Qed.

(** A relation every step respects holds from the start of a loop to its
    end, however it ends. *)
Lemma for_each_rel {A} (R : relation filesystem) (l : list A) f :
  (∀ s, R s s) → (∀ s1 s2 s3, R s1 s2 → R s2 s3 → R s1 s3) →
  (∀ x s r s', f x s = (r, s') → R s s') →
  ∀ s r s', for_each l f s = (r, s') → R s s'.
Proof.
  intros Hrefl Htrans Hf. induction l as [|x l IH]; intros s r s'.
  { intros [= <- <-]. done. }
  rewrite for_each_cons. destruct (f x s) as [[[]|e] s1] eqn:E.
  - intros H. eapply Htrans; [by eapply Hf|by eapply IH].
  - intros [= <- <-]. by eapply Hf.
Qed.

Lemma for_each_inv {A} (I : filesystem → Prop) (l : list A) f :
  (∀ x s r s', f x s = (r, s') → I s → I s') →
  ∀ s r s', for_each l f s = (r, s') → I s → I s'.
Proof.
  intros Hf. induction l as [|x l IH]; intros s r s'.
  { by intros [= <- <-]. }
  rewrite for_each_cons. destruct (f x s) as [[[]|e] s1] eqn:E.
  - intros H Hs. eapply IH; [done|]. by eapply Hf.
  - intros [= <- <-]. by eapply Hf.
Qed.

(** A loop that raises stopped at the first step that raised. *)
Lemma for_each_raise {A} (l : list A) f s e s' :
  for_each l f s = (Raise e, s') →
  ∃ l1 x l2 s1, l = l1 ++ x :: l2 ∧
    for_each l1 f s = (Return tt, s1) ∧ f x s1 = (Raise e, s').
Proof.
  revert s. induction l as [|x l IH]; intros s; [done|].
  rewrite for_each_cons. destruct (f x s) as [[[]|e1] s1] eqn:E.
  - intros (l1 & y & l2 & s2 & -> & H1 & H2)%IH.
    exists (x :: l1), y, l2, s2. split_and!; [done| |done].
    by rewrite for_each_cons, E.
  - intros [= <- <-]. by exists [], x, l, s.
Qed.

(** A loop that returns ran every step. *)
Lemma for_each_return {A} (l1 : list A) x l2 f s s' :
  for_each (l1 ++ x :: l2) f s = (Return tt, s') →
  ∃ s1 s2, for_each l1 f s = (Return tt, s1) ∧ f x s1 = (Return tt, s2) ∧
           for_each l2 f s2 = (Return tt, s').
Proof.
  rewrite for_each_app. destruct (for_each l1 f s) as [[[]|e] s1]; [|done].
  rewrite for_each_cons. destruct (f x s1) as [[[]|e] s2] eqn:E; [|done].
  eauto 10.
Qed.

Lemma create_files_actions dir files s :
  create_files dir files s =
  for_each (map (λ file_name, CreateFile (posixpath.join dir file_name)) files)
    run_action s.
Proof. unfold create_files. by rewrite for_each_map. Qed.

Lemma create_folder_actions base entry s :
  create_folder base entry s = for_each (entry_actions base entry) run_action s.
Proof.
  destruct entry as [folder files]. unfold create_folder, entry_actions.
  rewrite for_each_cons. simpl. unfold mbind, io_bind.
  destruct (makedirs _ true s) as [[[]|e] s1]; [|done].
  apply create_files_actions.
Qed.

(** The nested loops run the steps of [actions], in that order. *)
Lemma scaffold_actions base table s :
  scaffold base table s = for_each (actions base table) run_action s.
Proof.
  unfold scaffold, actions. revert s.
  induction table as [|entry table IH]; intros s; [done|].
  cbn [map concat]. rewrite for_each_app, for_each_cons, create_folder_actions.
  destruct (for_each (entry_actions base entry) run_action s) as [[[]|e] s1];
    [apply IH|done].
Qed.

(** ** The run *)

Lemma run_actions_grows l s r s' :
  for_each l run_action s = (r, s') → grows s s'.
Proof.
  apply for_each_rel; [apply grows_refl|apply grows_trans|].
  apply run_action_grows.
Qed.

Lemma run_actions_wf l s r s' :
  for_each l run_action s = (r, s') → wf_fs s → wf_fs s'.
Proof. apply (for_each_inv wf_fs). apply run_action_wf. Qed.

Lemma scaffold_grows base table s r s' :
  scaffold base table s = (r, s') → grows s s'.
Proof. rewrite scaffold_actions. apply run_actions_grows. Qed.

Lemma scaffold_wf base table s r s' :
  scaffold base table s = (r, s') → wf_fs s → wf_fs s'.
Proof. rewrite scaffold_actions. apply run_actions_wf. Qed.

Lemma elem_of_actions base table a :
  a ∈ actions base table ↔
  ∃ folder files, (folder, files) ∈ table ∧
    (a = MakeDirs (posixpath.join base folder) ∨
     ∃ file_name, file_name ∈ files ∧
       a = CreateFile
             (posixpath.join (posixpath.join base folder) file_name)).
Proof.
  unfold actions. rewrite list_elem_of_In, in_concat.
  setoid_rewrite in_map_iff. split.
  - intros (l & ([folder files] & <- & He) & Ha).
    exists folder, files. split; [by apply list_elem_of_In|].
    destruct Ha as [<-|Ha]; [by left|right].
    apply in_map_iff in Ha as (f & <- & Hf). exists f.
    split; [by apply list_elem_of_In|done].
  - intros (folder & files & He & Ha).
    exists (entry_actions base (folder, files)). split.
    + exists (folder, files). split; [done|by apply list_elem_of_In].
    + destruct Ha as [->|(f & Hf & ->)]; [by left|right].
      apply in_map_iff. exists f. split; [done|by apply list_elem_of_In].
Qed.

(** Every step of a run that returned did return, in a well-formed state
    between the first and the last. *)
Lemma run_actions_step l a s s' :
  for_each l run_action s = (Return tt, s') → a ∈ l →
  ∃ s1 s2, grows s s1 ∧ (wf_fs s → wf_fs s1) ∧
    run_action a s1 = (Return tt, s2) ∧ grows s2 s'.
Proof.
  intros H (l1 & l2 & ->)%list_elem_of_split.
  apply for_each_return in H as (s1 & s2 & H1 & Ha & H2).
  exists s1, s2. split_and!; [by eapply run_actions_grows|
    by eapply run_actions_wf|done|by eapply run_actions_grows].
Qed.

Lemma plain_folders_lookup base table folder files :
  plain_folders base table → (folder, files) ∈ table →
  plain (posixpath.join base folder).
Proof.
  unfold plain_folders. rewrite Forall_forall. intros H He. by apply (H _ He).
Qed.

Lemma scaffold_isdir base table s s' folder files :
  wf_fs s → plain_folders base table →
  scaffold base table s = (Return tt, s') → (folder, files) ∈ table →
  os.path.isdir s' (posixpath.join base folder) = true.
Proof.
  intros Hwf Hplain H He. rewrite scaffold_actions in H.
  destruct (run_actions_step _ (MakeDirs (posixpath.join base folder)) _ _ H)
    as (s1 & s2 & Hg1 & Hwf1 & Ha & Hg2).
  { apply elem_of_actions. eauto 10. }
  eapply grows_isdir; [done|]. simpl in Ha.
  eapply makedirs_isdir; [by auto| |done]. by eapply plain_folders_lookup.
Qed.

Lemma scaffold_file_content base table s s' folder files file_name :
  scaffold base table s = (Return tt, s') →
  (folder, files) ∈ table → file_name ∈ files →
  file_content s'
    (posixpath.join (posixpath.join base folder) file_name) = Some "".
Proof.
  intros H He Hf. rewrite scaffold_actions in H.
  destruct (run_actions_step _
              (CreateFile (posixpath.join (posixpath.join base folder)
                             file_name)) _ _ H)
    as (s1 & s2 & _ & _ & Ha & Hg2).
  { apply elem_of_actions. eauto 10. }
  eapply grows_file_empty; [done|]. by eapply create_file_content.
Qed.

Lemma for_each_fixed {A} (l : list A) f s :
  (∀ x, x ∈ l → f x s = (Return tt, s)) → for_each l f s = (Return tt, s).
Proof.
  induction l as [|x l IH]; intros H; [done|].
  rewrite for_each_cons, (H x) by (apply elem_of_cons; auto).
  apply IH. intros y Hy. apply H. apply elem_of_cons. auto.
Qed.

(** Emptying an empty file changes nothing. *)
Lemma create_file_existing_empty p s :
  wf_fs s → file_content s p = Some "" →
  run_action (CreateFile p) s = (Return tt, s).
Proof.
  intros Hwf (k & Hn & Hk & He)%file_content_iff.
  simpl. unfold mbind, io_bind, open_w, file_write, sys.open_trunc.
  rewrite Hn, He.
  destruct (last (segments p)) as [c|] eqn:Hl.
  2:{ apply (namei_no_last _ _ _ Hn) in Hl as ->.
      destruct Hwf as (? & _). congruence. }
  destruct (special c) eqn:Hc.
  { destruct (namei_last _ _ _ _ Hn Hl) as (i & kd & _ & _ & Hkd & ->).
    pose proof (wf_lookup_step s kd c Hwf Hkd Hc). congruence. }
  rewrite Hk. rewrite insert_id by done.
  destruct s as [c0 t]. simpl in *. by rewrite (write_nothing (mkFS c0 t) k).
Qed.

(** Opening an existing regular file for writing succeeds. *)
Lemma create_file_existing p s d :
  wf_fs s → file_content s p = Some d →
  ∃ s', run_action (CreateFile p) s = (Return tt, s').
Proof.
  intros Hwf (k & Hn & Hk & He)%file_content_iff.
  destruct (run_action (CreateFile p) s) as [r s'] eqn:H. exists s'. f_equal.
  apply create_file_inv in H as [(e & Ho & _ & _)|(_ & _ & -> & _)]; [|done].
  exfalso. unfold sys.open_trunc in Ho. rewrite Hn, He in Ho.
  destruct (last (segments p)) as [c|] eqn:Hl.
  2:{ apply (namei_no_last _ _ _ Hn) in Hl as ->.
      destruct Hwf as (? & _). congruence. }
  destruct (special c) eqn:Hc.
  { destruct (namei_last _ _ _ _ Hn Hl) as (i & kd & _ & _ & Hkd & ->).
    pose proof (wf_lookup_step s kd c Hwf Hkd Hc). congruence. }
  by rewrite Hk in Ho.
Qed.

(** ** Files in a folder *)

Lemma namei_join s d f k :
  truthy d = true → has_sep f = false →
  namei s (posixpath.join d f) = inr k ↔
  if truthy f
  then ∃ kd, namei s d = inr kd ∧ tree s !! kd = Some Dir ∧
             k = lookup_step kd f
  else namei s d = inr k.
Proof.
  intros Hd Hf. pose proof (has_sep_startswith f Hf) as Hsw.
  assert (Hst : start s (posixpath.join d f) = start s d).
  { unfold start. by rewrite join_startswith. }
  rewrite namei_walk, join_segments, (segments_no_sep f), Hst, join_truthy
    by done.
  destruct (truthy f).
  - rewrite walk_snoc. split.
    + intros (_ & kd & Hw & Hk & ->). exists kd.
      split_and!; [by apply namei_walk|done..].
    + intros (kd & [_ Hw]%namei_walk & Hk & ->). eauto.
  - rewrite app_nil_r, namei_walk. tauto.
Qed.

Lemma file_parent_isdir s d f data :
  truthy d = true → has_sep f = false →
  file_content s (posixpath.join d f) = Some data →
  os.path.isdir s d = true.
Proof.
  intros Hd Hf (k & Hn & Hk & He)%file_content_iff.
  rewrite join_file_endswith in He by done.
  apply negb_false_iff in He.
  apply (namei_join s d f k Hd Hf) in Hn. rewrite He in Hn.
  destruct Hn as (kd & ? & ? & _). apply isdir_iff. eauto.
Qed.

(** In a folder that is there, a file name without separator resolves. *)
Lemma namei_in_dir s d f :
  os.path.isdir s d = true → has_sep f = false →
  ∃ k, namei s (posixpath.join d f) = inr k.
Proof.
  intros (kd & Hn & Hk)%isdir_iff Hf.
  pose proof (namei_truthy _ _ _ Hn) as Hd.
  destruct (truthy f) eqn:Ht.
  - exists (lookup_step kd f). apply namei_join; [done..|].
    rewrite Ht. eauto.
  - exists kd. apply namei_join; [done..|]. by rewrite Ht.
Qed.


(** ** Running again *)

Lemma settled_fixed s a :
  wf_fs s → settled s a → run_action a s = (Return tt, s).
Proof.
  intros Hwf. destruct a as [p|p]; simpl settled.
  - apply makedirs_existing.
  - by apply create_file_existing_empty.
Qed.

Lemma overwrite_file s p data k d0 :
  namei s p = inr k → tree s !! k = Some (File d0) →
  overwrite s p data = mkFS (cwd s) (<[k := File data]> (tree s)).
Proof. intros Hn Hk. unfold overwrite. by rewrite Hn, Hk. Qed.

(** After somebody wrote into one file of a settled tree, the steps leave the
    tree as it is until one of them opens that file, and that one puts the
    tree back as it was. *)
Lemma rerun_overwritten l s1 k0 data :
  wf_fs s1 → tree s1 !! k0 = Some (File "") →
  (∀ a, a ∈ l → settled s1 a) →
  let x := mkFS (cwd s1) (<[k0 := File data]> (tree s1)) in
  for_each l run_action x = (Return tt, s1) ∨
  (for_each l run_action x = (Return tt, x) ∧
   ∀ p, CreateFile p ∈ l → namei s1 p ≠ inr k0).
Proof.
  intros Hwf Hk0 Hl x.
  assert (Hwfx : wf_fs x).
  { apply wf_insert; [done|congruence|]. destruct Hwf as (_ & _ & Hp).
    apply Hp. by rewrite Hk0. }
  assert (Hdirs : ∀ k, tree s1 !! k = Some Dir → tree x !! k = Some Dir).
  { intros k Hk. simpl. rewrite lookup_insert_ne; [done|congruence]. }
  assert (Hnamei : ∀ p k, namei s1 p = inr k → namei x p = inr k).
  { intros p k [Hp Hw]%namei_walk. apply namei_walk. split; [done|].
    by eapply walk_mono. }
  induction l as [|a l IH]; [right; split; [done|]; by intros p ?%elem_of_nil|].
  assert (Hrest : ∀ a', a' ∈ l → settled s1 a').
  { intros a' Ha'. apply Hl, elem_of_cons. auto. }
  specialize (IH Hrest). rewrite for_each_cons.
  pose proof (Hl a (proj2 (elem_of_cons _ _ _) (or_introl eq_refl))) as Ha.
  destruct a as [p|p]; simpl in Ha.
  - rewrite (settled_fixed x (MakeDirs p)); [|done|].
    2:{ simpl. apply isdir_iff in Ha as (k & Hn & Hk). apply isdir_iff.
        exists k. auto. }
    destruct IH as [IH|[IH Hno]]; [by left|right]. split; [done|].
    intros q [[=]|Hq]%elem_of_cons. by apply Hno.
  - apply file_content_iff in Ha as (k & Hn & Hk & He).
    assert (Hfx : ∃ d, file_content x p = Some d).
    { destruct (decide (k0 = k)) as [<-|Hne].
      - exists data. apply file_content_iff. exists k0.
        split_and!; [by auto| |done]. apply lookup_insert_eq.
      - exists "". apply file_content_iff. exists k.
        split_and!; [by auto| |done]. simpl. by rewrite lookup_insert_ne. }
    destruct Hfx as [d Hfx].
    destruct (create_file_existing p x d Hwfx Hfx) as [s' Hs'].
    rewrite Hs'.
    apply create_file_inv in Hs' as [(e & _ & ? & _)|(k' & Ho & _ & Es')];
      [done|].
    apply open_trunc_inr in Ho as (Hn' & _).
    rewrite (Hnamei _ _ Hn) in Hn'. injection Hn' as <-.
    destruct (decide (k0 = k)) as [<-|Hne].
    + left. assert (s' = s1) as ->.
      { rewrite Es'. simpl. rewrite insert_insert_eq, insert_id by done.
        by destruct s1. }
      apply for_each_fixed. intros a' Ha'. apply settled_fixed; auto.
    + assert (s' = x) as ->.
      { rewrite Es'. unfold x at 2. f_equal. apply insert_id. simpl.
        by rewrite lookup_insert_ne. }
      destruct IH as [IH|[IH Hno]]; [by left|right]. split; [done|].
      intros q [[= ->]|Hq]%elem_of_cons; [congruence|by apply Hno].
Qed.

(** ** What a run may touch *)

Lemma run_actions_frame l s r s' k :
  for_each l run_action s = (r, s') →
  tree s' !! k ≠ tree s !! k → k ∈ concat (map (action_keys s) l).
Proof.
  revert s. induction l as [|a l IH]; intros s.
  { by intros [= <- <-]. }
  rewrite for_each_cons. cbn [map concat]. rewrite elem_of_app.
  destruct (run_action a s) as [[[]|e] s1] eqn:Ha.
  - intros H Hk. destruct (decide (tree s1 !! k = tree s !! k)) as [E|E].
    + right. rewrite <- E in Hk. apply (IH s1 H) in Hk.
      erewrite map_ext; [done|]. intros a'. symmetry.
      apply action_keys_cwd. by apply (run_action_grows _ _ _ _ Ha).
    + left. by eapply run_action_frame.
  - intros [= <- <-] Hk. left. by eapply run_action_frame.
Qed.

Lemma returned {A} (m : io A) s a :
  (m s).1 = Return a → m s = (Return a, (m s).2).
Proof. destruct (m s) as [r s']. simpl. by intros ->. Qed.

Lemma no_collision_clear_path s p :
  wf_fs s → no_collision s p → clear_path s p.
Proof.
  intros Hwf Hnc i d Hk.
  assert (Hin : ∀ j, 1 ≤ j ≤ length (segments p) →
            tree s !! prefix_key s p j ≠ Some (File d)).
  { intros j Hj Hkj. unfold no_collision in Hnc.
    rewrite Forall_forall in Hnc.
    apply (Hnc (prefix_key s p j)).
    - apply elem_of_prefix_keys. eauto.
    - by rewrite Hkj. }
  assert (H0 : tree s !! prefix_key s p 0 = Some Dir).
  { unfold prefix_key. simpl. by apply wf_start. }
  destruct (decide (i = 0)) as [->|Hi0]; [congruence|].
  destruct (decide (i ≤ length (segments p))) as [Hi|Hi].
  { apply (Hin i); [lia|done]. }
  rewrite prefix_key_full in Hk by lia.
  rewrite <- (prefix_key_full s p (length (segments p))) in Hk by done.
  destruct (decide (length (segments p) = 0)) as [E|E].
  - rewrite E in Hk. congruence.
  - apply (Hin (length (segments p))); [lia|done].
Qed.


Lemma raised {A} (m : io A) s e :
  (m s).1 = Raise e → m s = (Raise e, (m s).2).
Proof. destruct (m s) as [r s']. simpl. by intros ->. Qed.

(** The condition [plain] of [makedirs_isdir] cannot be dropped: with a
    [".."] after a name that does not exist yet, [makedirs] swallows the
    [FileExistsError] of the recursive call and returns at its test for
    ["."], though the name is a regular file. *)
Example makedirs_dotdot_returns :
  (makedirs "src/new/../f/." true fs_with_file).1 = Return tt ∧
  os.path.isdir (makedirs "src/new/../f/." true fs_with_file).2
    "src/new/../f/." = false.
Proof. split; vm_compute; reflexivity. Qed.

(** A table of the shape [table_ok], under a base directory without
    [".."], has plain folder paths. *)
Lemma relative_dir_plain d :
  relative_dir d → plain d ∧ startswith_sep d = false.
Proof.
  intros [->|H]; [by split; compute_done|]. split.
  - unfold plain, segments. intros Hin%list_elem_of_filter.
    destruct Hin as [_ Hin]. rewrite Forall_forall in H.
    destruct (H _ Hin) as (_ & _ & Hdd). done.
  - destruct d as [|c d]; [done|]. simpl. simpl in H.
    destruct (Ascii.eqb c sep); [|done].
    apply Forall_cons in H as [(He & _) _]. done.
Qed.

Lemma table_ok_plain_folders base table :
  plain base → table_ok table → plain_folders base table.
Proof.
  intros Hb. unfold table_ok, plain_folders. intros H.
  eapply Forall_impl; [done|]. intros [folder files] [Hd _]. simpl in *.
  apply relative_dir_plain in Hd as [Hd Hs].
  unfold plain. rewrite join_segments by done.
  rewrite not_elem_of_app. by split.
Qed.

(** * The properties of the specification *)

(** C1: after a run of the script that raised nothing, started on a
    well-formed file system, every folder of the table, joined to the base
    directory, is a directory.  ([scaffold_isdir] says the same of every
    base directory and table with plain folder paths.) *)
Theorem C1_folders_exist s s' folder files :
  wf_fs s → main s = (Return tt, s') →
  (folder, files) ∈ structure →
  os.path.isdir s' (posixpath.join base_dir folder) = true.
Proof.
  intros Hwf. apply scaffold_isdir; [done|].
  apply table_ok_plain_folders; compute_done.
Qed.

Lemma C1_folders_exist_witness :
  os.path.isdir (main fs_fresh).2 "src/components/auth" = true ∧
  os.path.isdir (main fs_fresh).2 "src/." = true.
Proof.
  split.
  - apply (C1_folders_exist fs_fresh (main fs_fresh).2
             "components/auth" ["LoginPage.jsx"; "ProtectedRoute.jsx"]);
      [compute_done|apply returned; vm_compute; reflexivity|compute_done].
  - apply (C1_folders_exist fs_fresh (main fs_fresh).2
             "." ["App.jsx"; "main.jsx"; "routes.jsx"]);
      [compute_done|apply returned; vm_compute; reflexivity|compute_done].
Defined.

(** C2: after a run that raised nothing, every file of the table is a
    regular file of length zero, whatever was at its path before.  This
    holds for every base directory, table and initial file system. *)
Theorem C2_files_empty base table s s' folder files file_name :
  scaffold base table s = (Return tt, s') →
  (folder, files) ∈ table → file_name ∈ files →
  ∃ data,
    file_content s'
      (posixpath.join (posixpath.join base folder) file_name) = Some data ∧
    String.length data = 0.
Proof.
  intros H He Hf. exists "". split; [|done].
  by eapply scaffold_file_content.
Qed.

Lemma C2_files_empty_witness :
  file_content fs_with_hook "src/hooks/useAuth.js"
    = Some "export const useAuth = () => null;" ∧
  ∃ data, file_content (main fs_with_hook).2 "src/hooks/useAuth.js" = Some data ∧
          String.length data = 0.
Proof.
  split; [vm_compute; reflexivity|].
  apply (C2_files_empty base_dir structure fs_with_hook (main fs_with_hook).2
           "hooks" ["useAuth.js"] "useAuth.js");
    [apply returned; vm_compute; reflexivity|compute_done|compute_done].
Defined.

Lemma scaffold_settled base table s s1 :
  wf_fs s → plain_folders base table →
  scaffold base table s = (Return tt, s1) →
  ∀ a, a ∈ actions base table → settled s1 a.
Proof.
  intros Hwf Hplain H a (folder & files & He & Ha)%elem_of_actions.
  destruct Ha as [->|(f & Hf & ->)]; simpl.
  - by eapply scaffold_isdir.
  - by eapply scaffold_file_content.
Qed.

(** A second run after a run that raised nothing changes nothing; and
    after somebody wrote into one of the files of the table, the second run
    ends in the state the first had left. *)
Lemma scaffold_idempotent base table s s1 :
  wf_fs s → plain_folders base table →
  scaffold base table s = (Return tt, s1) →
  scaffold base table s1 = (Return tt, s1) ∧
  ∀ folder files file_name data,
    (folder, files) ∈ table → file_name ∈ files →
    scaffold base table
      (overwrite s1 (posixpath.join (posixpath.join base folder) file_name)
         data)
    = (Return tt, s1).
Proof.
  intros Hwf Hplain H.
  pose proof (scaffold_settled _ _ _ _ Hwf Hplain H) as Hset.
  pose proof (scaffold_wf _ _ _ _ _ H Hwf) as Hwf1.
  split.
  - rewrite scaffold_actions.
    apply for_each_fixed. intros a Ha. apply settled_fixed; auto.
  - intros folder files f data He Hf.
    set (p := posixpath.join (posixpath.join base folder) f).
    assert (Hp : CreateFile p ∈ actions base table).
    { apply elem_of_actions. eauto 10. }
    pose proof (Hset _ Hp) as (k0 & Hn & Hk0 & _)%file_content_iff.
    rewrite (overwrite_file s1 p data k0 "") by done.
    rewrite scaffold_actions.
    destruct (rerun_overwritten (actions base table) s1 k0 data Hwf1 Hk0 Hset)
      as [Hrun|[_ Hno]]; [done|].
    by destruct (Hno p Hp).
Qed.

(** C3: where one run of the script raises nothing, two runs in a row end
    in the state one run ends in; and when somebody has written into one of
    the files of the table in between, the second run empties that file
    again and ends in that same state.  ([scaffold_idempotent] says the same
    of every base directory and table with plain folder paths.) *)
Theorem C3_idempotent s s1 :
  wf_fs s → main s = (Return tt, s1) →
  (_ ← main; main) s = main s ∧
  ∀ folder files file_name data,
    (folder, files) ∈ structure → file_name ∈ files →
    main
      (overwrite s1
         (posixpath.join (posixpath.join base_dir folder) file_name) data)
    = (Return tt, s1).
Proof.
  intros Hwf H.
  destruct (scaffold_idempotent base_dir structure s s1) as [Hagain Hover];
    [done|apply table_ok_plain_folders; compute_done|done|].
  split; [|done]. unfold mbind, io_bind. by rewrite H.
Qed.

Lemma C3_idempotent_witness :
  (_ ← main; main) fs_fresh = main fs_fresh ∧
  file_content
    (overwrite (main fs_fresh).2 "src/hooks/useAuth.js" "scribble")
    "src/hooks/useAuth.js" = Some "scribble" ∧
  main (overwrite (main fs_fresh).2 "src/hooks/useAuth.js" "scribble")
  = (Return tt, (main fs_fresh).2).
Proof.
  destruct (C3_idempotent fs_fresh (main fs_fresh).2)
    as [Htwice Hagain];
    [compute_done|apply returned; vm_compute; reflexivity|].
  split_and!; [exact Htwice|vm_compute; reflexivity|].
  apply (Hagain "hooks" ["useAuth.js"] "useAuth.js" "scribble"); compute_done.
Defined.

(** C4: a regular file that is already at the path of one of the files of
    the table, with whatever content, makes no step fail: when the run gets
    to the step for that file, the step raises nothing and leaves the file
    with length zero.  For the base directory ["src"] and the table
    [{"hooks": ["useAuth.js"]}] the whole run raises nothing and the file
    ["src/hooks/useAuth.js"] is empty afterwards. *)
Theorem C4_existing_file_truncated :
  (∀ base table folder files file_name s0 data pre post s,
     wf_fs s0 → (folder, files) ∈ table → file_name ∈ files →
     let file_path :=
       posixpath.join (posixpath.join base folder) file_name in
     file_content s0 file_path = Some data →
     actions base table = pre ++ CreateFile file_path :: post →
     for_each pre run_action s0 = (Return tt, s) →
     ∃ s', run_action (CreateFile file_path) s = (Return tt, s') ∧
           file_content s' file_path = Some "") ∧
  (∀ s0 data,
     wf_fs s0 → file_content s0 "src/hooks/useAuth.js" = Some data →
     ∃ s', scaffold "src" [("hooks", ["useAuth.js"])] s0 = (Return tt, s') ∧
           file_content s' "src/hooks/useAuth.js" = Some "").
Proof.
  assert (Hstep : ∀ p s0 s data l,
    wf_fs s0 → file_content s0 p = Some data →
    for_each l run_action s0 = (Return tt, s) →
    ∃ s', run_action (CreateFile p) s = (Return tt, s') ∧
          file_content s' p = Some "").
  { intros p s0 s data l Hwf Hfile Hpre.
    pose proof (run_actions_wf _ _ _ _ Hpre Hwf) as Hwfs.
    destruct (grows_is_file s0 s p data) as [d' Hd'];
      [by eapply run_actions_grows|done|].
    destruct (create_file_existing p s d' Hwfs Hd') as [s' Hs'].
    exists s'. split; [done|]. by eapply create_file_content. }
  split.
  - intros base table folder files f s0 data pre post s Hwf _ _ p Hfile _ Hpre.
    by eapply Hstep.
  - intros s0 data Hwf Hfile.
    assert (Hdir : os.path.isdir s0 "src/hooks" = true).
    { by eapply (file_parent_isdir s0 "src/hooks" "useAuth.js"). }
    destruct (Hstep "src/hooks/useAuth.js" s0 s0 data [MakeDirs "src/hooks"])
      as (s' & Hs' & Hc); [done..| |].
    { rewrite for_each_cons. simpl run_action.
      by rewrite (makedirs_existing _ _ Hdir). }
    exists s'. split; [|done]. rewrite scaffold_actions.
    change (actions "src" [("hooks", ["useAuth.js"])])
      with [MakeDirs "src/hooks"; CreateFile "src/hooks/useAuth.js"].
    rewrite for_each_cons. simpl run_action at 1.
    rewrite (makedirs_existing _ _ Hdir), for_each_cons, Hs'. done.
Qed.

Lemma C4_existing_file_truncated_witness :
  file_content fs_with_hook "src/hooks/useAuth.js"
    = Some "export const useAuth = () => null;" ∧
  ∃ s', scaffold "src" [("hooks", ["useAuth.js"])] fs_with_hook
          = (Return tt, s') ∧
        file_content s' "src/hooks/useAuth.js" = Some "".
Proof.
  split; [vm_compute; reflexivity|].
  apply (proj2 C4_existing_file_truncated fs_with_hook
           "export const useAuth = () => null;");
    [compute_done|vm_compute; reflexivity].
Defined.



(** C6: the run is not transactional.  A run that raises stopped at the
    first step that raised: the steps before it all ran, the error is the
    one of that step, the steps after it did not run, and everything the
    steps before had left on the file system is still there, unchanged. *)
Theorem C6_not_transactional base table s e s' :
  scaffold base table s = (Raise e, s') →
  ∃ before failing rest s1,
    actions base table = before ++ failing :: rest ∧
    for_each before run_action s = (Return tt, s1) ∧
    run_action failing s1 = (Raise e, s') ∧
    tree s1 ⊆ tree s'.
Proof.
  rewrite scaffold_actions.
  intros (before & failing & rest & s1 & Hl & Hbefore & Hfail)%for_each_raise.
  exists before, failing, rest, s1. split_and!; [done..|].
  apply map_subseteq_spec. intros k n Hk.
  destruct failing as [p|p].
  - simpl in Hfail. apply makedirs_adds_dirs in Hfail as [[_ Ha] _].
    destruct (Ha k) as [E|[E _]]; congruence.
  - apply create_file_inv in Hfail as [(_ & _ & _ & ->)|(_ & _ & ? & _)]; done.
Qed.

Lemma C6_not_transactional_witness :
  ∃ before failing rest s1,
    actions base_dir structure = before ++ failing :: rest ∧
    for_each before run_action fs_blocked = (Return tt, s1) ∧
    run_action failing s1
    = (Raise (mkOSError EEXIST "src/pages"), (main fs_blocked).2) ∧
    tree s1 ⊆ tree (main fs_blocked).2.
Proof.
  apply (C6_not_transactional base_dir structure fs_blocked).
  apply raised. vm_compute. reflexivity.
Defined.

(** C7: where the folder of an entry is a directory before the run, the
    [makedirs] step of that entry, reached after the entries before it,
    raises nothing and changes nothing; the directory is still there. *)
Theorem C7_existing_folder base before folder s0 s :
  os.path.isdir s0 (posixpath.join base folder) = true →
  scaffold base before s0 = (Return tt, s) →
  makedirs (posixpath.join base folder) true s = (Return tt, s) ∧
  os.path.isdir s (posixpath.join base folder) = true.
Proof.
  intros Hdir Hbefore.
  assert (os.path.isdir s (posixpath.join base folder) = true) as Hs.
  { eapply grows_isdir; [|done]. by eapply scaffold_grows. }
  split; [by apply makedirs_existing|done].
Qed.

Lemma C7_existing_folder_witness :
  let s := (scaffold base_dir (take 4 structure) fs_with_hook).2 in
  makedirs "src/hooks" true s = (Return tt, s) ∧
  os.path.isdir s "src/hooks" = true.
Proof.
  apply (C7_existing_folder base_dir (take 4 structure) "hooks" fs_with_hook);
    [vm_compute; reflexivity|apply returned; vm_compute; reflexivity].
Defined.

(** C8: in the table of the script every key is ["."] or a relative path of
    names with single separators between them, and no file name contains a
    separator. *)
Theorem C8_table_shape : table_ok structure.
Proof. compute_done. Qed.

(** C9: a run, however it ends, leaves the working directory where it was
    and changes nothing at any key other than those of the folders of the
    table, of the directories leading to them, and of the files of the
    table. *)
Theorem C9_frame base table s r s' k :
  scaffold base table s = (r, s') →
  k ∉ target_keys base table s →
  cwd s' = cwd s ∧ tree s' !! k = tree s !! k.
Proof.
  intros H Hk. split; [by apply (scaffold_grows _ _ _ _ _ H)|].
  rewrite scaffold_actions in H.
  destruct (decide (tree s' !! k = tree s !! k)) as [|Hne]; [done|].
  destruct Hk. by eapply run_actions_frame.
Qed.

Lemma C9_frame_witness :
  cwd (main fs_with_hook).2 = cwd fs_with_hook ∧
  tree (main fs_with_hook).2 !! ["home"; "agro-track"; "README.md"]
  = Some (File "# agro-track").
Proof.
  apply (C9_frame base_dir structure fs_with_hook (main fs_with_hook).1);
    [apply surjective_pairing|compute_done].
Defined.

(** C10: [makedirs] comes before the files of an entry are opened.  So
    where no leading part of the folder path is a regular file, the entry
    cannot fail for want of a directory: whatever it raises, on the folder
    or on one of its files, is neither [FileNotFoundError] nor
    [NotADirectoryError].  The file names contain no separator, as in the
    table of the script, and the folder path is not empty. *)
Theorem C10_parent_exists base folder files s e s' :
  wf_fs s → truthy (posixpath.join base folder) = true →
  no_collision s (posixpath.join base folder) →
  Forall file_name_ok files →
  create_folder base (folder, files) s = (Raise e, s') →
  err e ≠ ENOENT ∧ err e ≠ ENOTDIR.
Proof.
  intros Hwf Hname Hnc Hfiles H.
  set (d := posixpath.join base folder) in *.
  destruct (makedirs_clear d s) as (s1 & Hs1 & Hdir);
    [done|done|by apply no_collision_clear_path|].
  unfold create_folder in H. fold d in H.
  unfold mbind, io_bind in H. rewrite Hs1, create_files_actions in H.
  apply for_each_raise in H as (l1 & a & l2 & sx & Hl & Hl1 & Ha).
  assert (Hin : a ∈ map (λ f, CreateFile (posixpath.join d f)) files).
  { rewrite Hl. apply elem_of_app. right. apply elem_of_cons. by left. }
  apply list_elem_of_In, in_map_iff in Hin as (f & <- & Hf%list_elem_of_In).
  apply create_file_inv in Ha as [(en & Ho & [= ->] & _)|(_ & _ & ? & _)];
    [|done].
  simpl.
  destruct (open_trunc_inl _ _ _ Ho) as [Hn| ->]; [|done].
  destruct (namei_in_dir sx d f) as [k Hk]; [| |congruence].
  - eapply grows_isdir; [|done]. by eapply run_actions_grows.
  - rewrite Forall_forall in Hfiles. by apply Hfiles.
Qed.

Lemma C10_parent_exists_witness :
  (create_folder base_dir (".", ["App.jsx"]) fs_dir_for_file).1
  = Raise (mkOSError EISDIR "src/./App.jsx") ∧
  err (mkOSError EISDIR "src/./App.jsx") ≠ ENOENT ∧
  err (mkOSError EISDIR "src/./App.jsx") ≠ ENOTDIR.
Proof.
  split; [vm_compute; reflexivity|].
  apply (C10_parent_exists base_dir "." ["App.jsx"] fs_dir_for_file
           (mkOSError EISDIR "src/./App.jsx")
           (create_folder base_dir (".", ["App.jsx"]) fs_dir_for_file).2);
    [compute_done|reflexivity|compute_done|compute_done|
     apply raised; vm_compute; reflexivity].
Defined.

(** * Further properties of the run *)

Lemma grows_file_content s s' p data :
  grows s s' → file_content s p = Some data →
  file_content s' p = Some data ∨ file_content s' p = Some "".
Proof.
  intros Hg (k & Hn & Hk & He)%file_content_iff.
  pose proof (grows_namei _ _ _ _ Hg Hn) as Hn'.
  destruct Hg as [_ Hg]. specialize (Hg k). rewrite Hk in Hg.
  destruct Hg as [Hg|Hg]; [left|right]; apply file_content_iff; eauto.
Qed.

(** X1: a run, however it ends, removes nothing and replaces nothing by
    something of another kind: what was a directory is a directory, what was
    a regular file is a regular file with its content or with none, and
    every key that was taken is taken. *)
Theorem X1_never_destroys base table s r s' :
  scaffold base table s = (r, s') →
  (∀ p, os.path.isdir s p = true → os.path.isdir s' p = true) ∧
  (∀ p data, file_content s p = Some data →
     file_content s' p = Some data ∨ file_content s' p = Some "") ∧
  (∀ k, is_Some (tree s !! k) → is_Some (tree s' !! k)).
Proof.
  intros Hg%scaffold_grows. split_and!.
  - intros p. by apply grows_isdir.
  - intros p data. by apply grows_file_content.
  - intros k [n Hk]. destruct Hg as [_ Hg]. specialize (Hg k).
    rewrite Hk in Hg. destruct n as [|d]; [by rewrite Hg|].
    destruct Hg as [-> | ->]; done.
Qed.

Lemma X1_never_destroys_witness :
  os.path.isdir (main fs_blocked).2 "src" = true ∧
  (file_content (main fs_blocked).2 "src/pages" = Some "notes" ∨
   file_content (main fs_blocked).2 "src/pages" = Some "") ∧
  is_Some (tree (main fs_blocked).2 !! ["home"]).
Proof.
  destruct (X1_never_destroys base_dir structure fs_blocked
              (main fs_blocked).1 (main fs_blocked).2)
    as (Hdir & Hfile & Hkey); [apply surjective_pairing|].
  split_and!.
  - apply Hdir. vm_compute. reflexivity.
  - apply (Hfile "src/pages" "notes"). vm_compute. reflexivity.
  - apply Hkey. vm_compute. eauto.
Defined.

(** X2: a run, however it ends, leaves a well-formed file system
    well formed: whatever it makes lies in a directory, and the root and
    the working directory stay directories. *)
Theorem X2_keeps_well_formed base table s r s' :
  wf_fs s → scaffold base table s = (r, s') → wf_fs s'.
Proof. intros Hwf H. by eapply scaffold_wf. Qed.

Lemma X2_keeps_well_formed_witness :
  wf_fs (main fs_blocked).2 ∧ wf_fs (main fs_fresh).2.
Proof.
  split.
  - apply (X2_keeps_well_formed base_dir structure fs_blocked
             (main fs_blocked).1); [compute_done|apply surjective_pairing].
  - apply (X2_keeps_well_formed base_dir structure fs_fresh
             (main fs_fresh).1); [compute_done|apply surjective_pairing].
Defined.

(** ** The keys of a table *)

Lemma elem_of_folder_keys base table s k :
  k ∈ folder_keys base table s ↔
  ∃ folder files, (folder, files) ∈ table ∧
    k ∈ prefix_keys s (posixpath.join base folder).
Proof.
  unfold folder_keys. rewrite list_elem_of_In, in_concat.
  setoid_rewrite in_map_iff. split.
  - intros (l & ([folder files] & <- & He) & Hk). exists folder, files.
    split; by apply list_elem_of_In.
  - intros (folder & files & He & Hk). eexists. split.
    + exists (folder, files). split; [done|by apply list_elem_of_In].
    + by apply list_elem_of_In.
Qed.

Lemma elem_of_file_keys base table s k :
  k ∈ file_keys base table s ↔
  ∃ folder files file_name, (folder, files) ∈ table ∧ file_name ∈ files ∧
    k = norm s (posixpath.join (posixpath.join base folder) file_name).
Proof.
  unfold file_keys. rewrite list_elem_of_In, in_concat.
  setoid_rewrite in_map_iff. split.
  - intros (l & ([folder files] & <- & He) & Hk).
    apply in_map_iff in Hk as (f & <- & Hf). exists folder, files, f.
    split_and!; [by apply list_elem_of_In..|done].
  - intros (folder & files & f & He & Hf & ->). eexists. split.
    + exists (folder, files). split; [done|by apply list_elem_of_In].
    + apply in_map_iff. exists f. split; [done|by apply list_elem_of_In].
Qed.

Lemma elem_of_target_keys base table s k :
  k ∈ target_keys base table s ↔
  k ∈ folder_keys base table s ∨ k ∈ file_keys base table s.
Proof.
  unfold target_keys. rewrite list_elem_of_In, in_concat.
  setoid_rewrite in_map_iff.
  rewrite elem_of_folder_keys, elem_of_file_keys. split.
  - intros (l & (a & <- & Ha%list_elem_of_In) & Hk%list_elem_of_In).
    apply elem_of_actions in Ha as (folder & files & He & [->|(f & Hf & ->)]);
      simpl in Hk.
    + left. eauto.
    + right. apply list_elem_of_singleton in Hk. eauto 10.
  - intros [(folder & files & He & Hk)|(folder & files & f & He & Hf & ->)].
    + exists (prefix_keys s (posixpath.join base folder)).
      split; [|by apply list_elem_of_In].
      exists (MakeDirs (posixpath.join base folder)). split; [done|].
      apply list_elem_of_In, elem_of_actions. eauto 10.
    + exists [norm s (posixpath.join (posixpath.join base folder) f)].
      split; [|by left].
      exists (CreateFile
                (posixpath.join (posixpath.join base folder) f)).
      split; [done|]. apply list_elem_of_In, elem_of_actions. eauto 10.
Qed.

(** A lookup that succeeds passed directories only. *)
Lemma walk_prefix_dirs t cur cs k i :
  walk t cur cs = inr k → i < length cs →
  t !! foldl lookup_step cur (take i cs) = Some Dir.
Proof.
  revert cur i. induction cs as [|c cs IH]; intros cur i; simpl; [lia|].
  destruct (t !! cur) as [[|d]|] eqn:E; [|done..]. intros Hw Hi.
  destruct i as [|i]; [done|]. simpl. apply IH; [done|lia].
Qed.

Lemma isdir_prefix_keys s p k :
  os.path.isdir s p = true → k ∈ prefix_keys s p → tree s !! k = Some Dir.
Proof.
  intros (kp & Hn & Hkp)%isdir_iff (i & Hi & ->)%elem_of_prefix_keys.
  pose proof (namei_norm _ _ _ Hn) as ->.
  apply namei_walk in Hn as [_ Hw].
  destruct (decide (i = length (segments p))) as [->|Hne].
  - by rewrite prefix_key_full.
  - unfold prefix_key. eapply walk_prefix_dirs; [done|lia].
Qed.

Lemma scaffold_file_key base table s s' k :
  scaffold base table s = (Return tt, s') →
  k ∈ file_keys base table s → tree s' !! k = Some (File "").
Proof.
  intros H (folder & files & f & He & Hf & ->)%elem_of_file_keys.
  pose proof (scaffold_grows _ _ _ _ _ H) as Hg.
  pose proof (scaffold_file_content _ _ _ _ _ _ _ H He Hf)
    as (k & Hn & Hk & _)%file_content_iff.
  apply namei_norm in Hn. rewrite (norm_cwd s s') in Hn by apply Hg.
  by rewrite <- Hn.
Qed.

Lemma scaffold_folder_key base table s s' k :
  wf_fs s → plain_folders base table →
  scaffold base table s = (Return tt, s') →
  k ∈ folder_keys base table s → tree s' !! k = Some Dir.
Proof.
  intros Hwf Hplain H (folder & files & He & Hk)%elem_of_folder_keys.
  pose proof (scaffold_grows _ _ _ _ _ H) as Hg.
  eapply isdir_prefix_keys; [by eapply scaffold_isdir|].
  unfold prefix_keys in *.
  erewrite map_ext; [exact Hk|]. intros i. apply prefix_key_cwd, Hg.
Qed.

(** Key by key, what a run that raises nothing leaves. *)
Lemma scaffold_expected base table s s' k :
  wf_fs s → plain_folders base table →
  scaffold base table s = (Return tt, s') →
  tree s' !! k = expected base table s k.
Proof.
  intros Hwf Hplain H. unfold expected.
  destruct (decide (k ∈ file_keys base table s)) as [Hfile|Hnofile];
    [by eapply scaffold_file_key|].
  destruct (decide (k ∈ folder_keys base table s)) as [Hfolder|Hnofolder];
    [by eapply scaffold_folder_key|].
  destruct (decide (tree s' !! k = tree s !! k)) as [|Hne]; [done|].
  rewrite scaffold_actions in H.
  pose proof (run_actions_frame _ _ _ _ _ H Hne) as Hin.
  apply (elem_of_target_keys base table s k) in Hin. tauto.
Qed.

(** X3: a run that raises nothing leaves exactly this: an empty regular
    file at every key of a file of the table, a directory at every key of
    a folder of the table and of a directory leading to one, and at every
    other key what was there.  So the outcome does not depend on what the
    files held before. *)
Theorem X3_final_state base table s s' :
  wf_fs s → plain_folders base table →
  scaffold base table s = (Return tt, s') →
  cwd s' = cwd s ∧ ∀ k, tree s' !! k = expected base table s k.
Proof.
  intros Hwf Hplain H.
  pose proof (scaffold_grows _ _ _ _ _ H) as Hg.
  split; [apply Hg|]. intros k. by apply scaffold_expected.
Qed.

Lemma X3_final_state_witness :
  tree (main fs_with_hook).2
    !! ["home"; "agro-track"; "src"; "hooks"; "useAuth.js"]
  = Some (File "") ∧
  tree (main fs_with_hook).2 !! ["home"; "agro-track"; "src"; "components"]
  = Some Dir ∧
  tree (main fs_with_hook).2 !! ["home"; "agro-track"; "README.md"]
  = Some (File "# agro-track") ∧
  tree (main fs_with_hook).2 !! ["home"; "agro-track"; "src"; "index.html"]
  = None.
Proof.
  destruct (X3_final_state base_dir structure fs_with_hook
              (main fs_with_hook).2) as [_ Hall];
    [compute_done|compute_done|apply returned; vm_compute; reflexivity|].
  split_and!; (etrans; [apply Hall|vm_compute; reflexivity]).
Defined.

(** ** When a run raises nothing *)

Lemma foldl_lookup_step_app a b cs :
  dotdot ∉ cs →
  foldl lookup_step (a ++ b) cs = a ++ foldl lookup_step b cs.
Proof.
  revert b. induction cs as [|c cs IH]; intros b Hcs; simpl; [done|].
  apply not_elem_of_cons in Hcs as [Hc Hcs].
  assert (lookup_step (a ++ b) c = a ++ lookup_step b c) as ->.
  { unfold lookup_step. destruct (decide (c = dot)); [done|].
    destruct (decide (c = dotdot)) as [->|]; [done|].
    by rewrite <- app_assoc. }
  by apply IH.
Qed.

(** The keys of a relative plain path lie below the working directory. *)
Lemma prefix_key_relative s p i :
  startswith_sep p = false → plain p →
  prefix_key s p i = cwd s ++ prefix_key at_root p i.
Proof.
  intros Hrel Hplain. unfold prefix_key, start. rewrite Hrel. simpl.
  rewrite <- (app_nil_r (cwd s)) at 1. apply foldl_lookup_step_app.
  intros Hin. apply Hplain. by eapply subseteq_take.
Qed.

Lemma norm_relative s p :
  startswith_sep p = false → plain p → norm s p = cwd s ++ norm at_root p.
Proof.
  intros Hrel Hplain.
  rewrite <- (prefix_key_full s p (length (segments p))) by done.
  rewrite <- (prefix_key_full at_root p (length (segments p))) by done.
  by apply prefix_key_relative.
Qed.

Lemma tidy_lookup base table folder files :
  tidy base table → (folder, files) ∈ table →
  truthy (posixpath.join base folder) = true ∧
  startswith_sep (posixpath.join base folder) = false ∧
  plain (posixpath.join base folder) ∧
  ∀ f, f ∈ files → has_sep f = false ∧ proper_name f.
Proof.
  intros [H _] He. rewrite Forall_forall in H.
  destruct (H _ He) as (? & ? & ? & Hf). split_and!; [done..|].
  intros f Hin. rewrite Forall_forall in Hf. by apply Hf.
Qed.

Lemma tidy_plain_folders base table : tidy base table → plain_folders base table.
Proof.
  intros [H _]. unfold plain_folders. eapply Forall_impl; [done|].
  intros entry (_ & _ & ? & _). done.
Qed.

Lemma proper_name_facts f :
  proper_name f → truthy f = true ∧ special f = false.
Proof.
  intros (H1 & H2 & H3). split; [by apply truthy_true|].
  unfold special. by rewrite !bool_decide_eq_false_2.
Qed.

(** The path of a file of a tidy table: relative, plain, its last name the
    file name. *)
Lemma tidy_file_path base table folder files f :
  tidy base table → (folder, files) ∈ table → f ∈ files →
  let p := posixpath.join (posixpath.join base folder) f in
  startswith_sep p = false ∧ plain p ∧ endswith_sep p = false ∧
  segments p = segments (posixpath.join base folder) ++ [f].
Proof.
  intros Ht He Hf p.
  destruct (tidy_lookup _ _ _ _ Ht He) as (Hd & Hrel & Hplain & Hfiles).
  destruct (Hfiles f Hf) as [Hsep Hname].
  destruct (proper_name_facts f Hname) as [Htr _].
  assert (Hseg : segments p
                 = segments (posixpath.join base folder) ++ [f]).
  { unfold p. rewrite join_segments by by apply has_sep_startswith.
    by rewrite (segments_no_sep f), Htr. }
  split_and!; [|  | |done].
  - unfold p. rewrite join_startswith; [done|by apply has_sep_startswith|done].
  - unfold plain. rewrite Hseg, not_elem_of_app, list_elem_of_singleton.
    split; [done|]. destruct Hname as (_ & _ & Hdd). congruence.
  - unfold p. rewrite join_file_endswith by done. by rewrite Htr.
Qed.

(** In a tidy table no file has the key of a folder or of a directory
    leading to one, wherever the working directory is. *)
Lemma tidy_disjoint base table s k :
  tidy base table → k ∈ file_keys base table s → k ∉ folder_keys base table s.
Proof.
  intros Ht (folder & files & f & He & Hf & ->)%elem_of_file_keys
         (folder' & files' & He' & (i & Hi & Hk)%elem_of_prefix_keys)
           %elem_of_folder_keys.
  destruct (tidy_file_path _ _ _ _ _ Ht He Hf) as (Hrel & Hplain & _ & _).
  destruct (tidy_lookup _ _ _ _ Ht He') as (_ & Hrel' & Hplain' & _).
  rewrite norm_relative, (prefix_key_relative s _ i) in Hk by done.
  apply app_inv_head in Hk.
  destruct Ht as [_ Hdis]. rewrite Forall_forall in Hdis.
  apply (Hdis (norm at_root
                 (posixpath.join (posixpath.join base folder) f))).
  - apply elem_of_file_keys. eauto 10.
  - apply elem_of_folder_keys. exists folder', files'. split; [done|].
    apply elem_of_prefix_keys. exists i. split; [|done].
    by unfold at_root in *.
Qed.

Lemma folder_keys_cwd base table s s' :
  cwd s' = cwd s → folder_keys base table s' = folder_keys base table s.
Proof.
  intros H. unfold folder_keys, prefix_keys. f_equal. apply map_ext.
  intros entry. apply map_ext. intros i. by apply prefix_key_cwd.
Qed.

Lemma file_keys_cwd base table s s' :
  cwd s' = cwd s → file_keys base table s' = file_keys base table s.
Proof.
  intros H. unfold file_keys. f_equal. apply map_ext.
  intros entry. apply map_ext. intros f. by apply norm_cwd.
Qed.

Lemma unobstructed_spec base table s :
  unobstructed base table s ↔
  (∀ k d, k ∈ folder_keys base table s → tree s !! k ≠ Some (File d)) ∧
  (∀ k, k ∈ file_keys base table s → tree s !! k ≠ Some Dir).
Proof.
  unfold unobstructed. rewrite !Forall_forall. split.
  - intros [H1 H2]. split; [|done]. intros k d Hk E.
    apply (H1 k Hk). by rewrite E.
  - intros [H1 H2]. split; [|done]. intros k Hk Hreg.
    destruct (tree s !! k) as [[|d]|] eqn:E; [done| |done].
    by apply (H1 k d).
Qed.

(** The [makedirs] of an entry of a tidy table, on a state where nothing
    is in the way. *)
Lemma makedirs_unobstructed base table folder files x :
  tidy base table → (folder, files) ∈ table →
  wf_fs x → unobstructed base table x →
  ∃ x1, makedirs (posixpath.join base folder) true x = (Return tt, x1) ∧
        wf_fs x1 ∧ unobstructed base table x1 ∧
        os.path.isdir x1 (posixpath.join base folder) = true.
Proof.
  intros Ht He Hwf Hun. set (d := posixpath.join base folder).
  destruct (tidy_lookup _ _ _ _ Ht He) as (Hd & _ & _ & _).
  apply unobstructed_spec in Hun as [Hfold Hfile].
  assert (Hin : ∀ k, k ∈ prefix_keys x d → k ∈ folder_keys base table x).
  { intros k Hk. apply elem_of_folder_keys. eauto. }
  destruct (makedirs_clear d x) as (x1 & Hx1 & Hdir); [done..| |].
  { apply no_collision_clear_path; [done|]. apply Forall_forall.
    intros k Hk Hreg. destruct (tree x !! k) as [[|data]|] eqn:E; try done.
    by apply (Hfold k data (Hin k Hk)). }
  destruct (makedirs_adds_dirs _ _ _ _ Hx1) as [[Hc Ha] Hwf1].
  exists x1. split_and!; [done|by auto| |done].
  apply unobstructed_spec.
  rewrite (folder_keys_cwd base table x x1), (file_keys_cwd base table x x1)
    by done.
  split.
  - intros k data Hk E. destruct (Ha k) as [E'|[_ E']]; [|congruence].
    apply (Hfold k data Hk). congruence.
  - intros k Hk E. destruct (Ha k) as [E'|[E0 _]].
    { apply (Hfile k Hk). congruence. }
    apply (tidy_disjoint base table x k Ht Hk), Hin, elem_of_prefix_keys.
    apply (makedirs_frame _ _ _ _ k Hx1). congruence.
Qed.

Lemma open_trunc_ok s p k c :
  namei s p = inr k → endswith_sep p = false →
  last (segments p) = Some c → special c = false →
  tree s !! k ≠ Some Dir →
  sys.open_trunc s p = inr (k, mkFS (cwd s) (<[k := File ""]> (tree s))).
Proof.
  intros Hn He Hl Hc Hk. unfold sys.open_trunc. rewrite Hn, He, Hl, Hc.
  by destruct (tree s !! k) as [[|d]|].
Qed.

(** The step for a file of an entry of a tidy table, once the folder is
    there. *)
Lemma create_file_unobstructed base table folder files f x :
  tidy base table → (folder, files) ∈ table → f ∈ files →
  wf_fs x → unobstructed base table x →
  os.path.isdir x (posixpath.join base folder) = true →
  ∃ x2,
    run_action
      (CreateFile (posixpath.join (posixpath.join base folder) f)) x
    = (Return tt, x2) ∧
    wf_fs x2 ∧ unobstructed base table x2 ∧
    os.path.isdir x2 (posixpath.join base folder) = true.
Proof.
  intros Ht He Hf Hwf Hun Hdir.
  destruct (tidy_lookup _ _ _ _ Ht He) as (Hd & _ & _ & Hfiles).
  destruct (Hfiles f Hf) as [Hsep Hname].
  destruct (proper_name_facts f Hname) as [Htr Hsp].
  destruct (tidy_file_path _ _ _ _ _ Ht He Hf) as (_ & _ & Hend & Hseg).
  destruct (namei_in_dir x _ f Hdir Hsep) as [k Hn].
  assert (Hk : k ∈ file_keys base table x).
  { apply elem_of_file_keys. exists folder, files, f.
    split_and!; [done..|]. by apply namei_norm. }
  pose proof Hun as [Hfold Hfile]%unobstructed_spec.
  pose proof (open_trunc_ok x _ k f Hn Hend) as Ho.
  rewrite Hseg, last_snoc in Ho.
  specialize (Ho eq_refl Hsp (Hfile k Hk)).
  destruct (run_action (CreateFile _) x) as [r x2] eqn:Hrun.
  pose proof (create_file_grows _ _ _ _ Hrun) as Hg.
  pose proof (create_file_wf _ _ _ _ Hrun Hwf) as Hwf2.
  apply create_file_inv in Hrun as [(e & Ho' & _)|(k' & Ho' & -> & Ex2)];
    [congruence|].
  rewrite Ho in Ho'. injection Ho' as <- _.
  exists x2. split_and!; [done|done| |by eapply grows_isdir].
  apply unobstructed_spec.
  rewrite (folder_keys_cwd base table x x2), (file_keys_cwd base table x x2)
    by apply Hg.
  rewrite Ex2. simpl. split.
  - intros j data Hj. rewrite lookup_insert_ne; [by apply Hfold|].
    intros <-. by apply (tidy_disjoint base table x k Ht Hk).
  - intros j Hj. destruct (decide (k = j)) as [<-|Hne].
    + by rewrite lookup_insert_eq.
    + rewrite lookup_insert_ne by done. by apply Hfile.
Qed.

Lemma create_files_unobstructed base table folder files l x :
  tidy base table → (folder, files) ∈ table → l ⊆ files →
  wf_fs x → unobstructed base table x →
  os.path.isdir x (posixpath.join base folder) = true →
  ∃ x', create_files (posixpath.join base folder) l x = (Return tt, x') ∧
        wf_fs x' ∧ unobstructed base table x'.
Proof.
  intros Ht He. revert x. induction l as [|f l IH]; intros x Hl Hwf Hun Hdir.
  { exists x. by split_and!. }
  destruct (create_file_unobstructed base table folder files f x)
    as (x2 & Hrun & Hwf2 & Hun2 & Hdir2); try done.
  { apply Hl, elem_of_cons. auto. }
  destruct (IH x2) as (x' & Hrest & Hwf' & Hun'); [|done..|].
  { intros g Hg. apply Hl, elem_of_cons. auto. }
  exists x'. split_and!; [|done..].
  unfold create_files in *. rewrite for_each_cons.
  simpl in Hrun. by rewrite Hrun.
Qed.

Lemma scaffold_unobstructed base table l x :
  tidy base table → l ⊆ table →
  wf_fs x → unobstructed base table x →
  ∃ x', scaffold base l x = (Return tt, x') ∧
        wf_fs x' ∧ unobstructed base table x'.
Proof.
  intros Ht. revert x.
  induction l as [|[folder files] l IH]; intros x Hl Hwf Hun.
  { exists x. by split_and!. }
  assert (He : (folder, files) ∈ table) by (apply Hl, elem_of_cons; auto).
  destruct (makedirs_unobstructed base table folder files x)
    as (x1 & Hx1 & Hwf1 & Hun1 & Hdir1); [done..|].
  destruct (create_files_unobstructed base table folder files files x1)
    as (x2 & Hx2 & Hwf2 & Hun2); [done..|].
  destruct (IH x2) as (x' & Hrest & Hwf' & Hun'); [|done..|].
  { intros e Hin. apply Hl, elem_of_cons. auto. }
  exists x'. split_and!; [|done..].
  unfold scaffold in *. rewrite for_each_cons. unfold create_folder.
  unfold mbind, io_bind. by rewrite Hx1, Hx2.
Qed.

(** A run that raised nothing started with nothing in its way. *)
Lemma scaffold_returned_unobstructed base table s s' :
  wf_fs s → plain_folders base table →
  scaffold base table s = (Return tt, s') → unobstructed base table s.
Proof.
  intros Hwf Hplain H.
  pose proof (scaffold_grows _ _ _ _ _ H) as [_ Hg].
  apply unobstructed_spec. split.
  - intros k d Hk E. specialize (Hg k). rewrite E in Hg.
    rewrite (scaffold_folder_key _ _ _ _ _ Hwf Hplain H Hk) in Hg.
    by destruct Hg.
  - intros k Hk E. specialize (Hg k). rewrite E in Hg.
    rewrite (scaffold_file_key _ _ _ _ _ H Hk) in Hg. done.
Qed.

(** X4: on a well-formed file system, a run over a tidy table whose paths
    are within the limits on names raises nothing exactly when nothing is
    in its way: no regular file at the key of a folder of the table or of a
    directory leading to one, and no directory at the key of a file of the
    table.  The file system is the one of this development: directories
    and regular files, with no access rights and no bounds on space. *)
Theorem X4_returns_iff_unobstructed base table s :
  wf_fs s → tidy base table → names_within_limits base table →
  (scaffold base table s).1 = Return tt ↔ unobstructed base table s.
Proof.
  intros Hwf Ht _. split.
  - intros H%returned.
    eapply scaffold_returned_unobstructed; [done| |done].
    by apply tidy_plain_folders.
  - intros Hun.
    destruct (scaffold_unobstructed base table table s) as (s' & -> & _);
      done.
Qed.

Lemma X4_returns_iff_unobstructed_witness :
  (main fs_with_hook).1 = Return tt ∧
  ¬ unobstructed base_dir structure fs_blocked ∧
  ¬ unobstructed base_dir structure fs_dir_for_file ∧
  ((main fs_dir_for_file).1 = Return tt → False).
Proof.
  split_and!.
  - apply (X4_returns_iff_unobstructed base_dir structure fs_with_hook);
      compute_done.
  - compute_done.
  - compute_done.
  - intros H.
    apply (X4_returns_iff_unobstructed base_dir structure fs_dir_for_file)
      in H; [|compute_done..].
    revert H. compute_done.
Defined.

(** ** What a run raises *)

Lemma walk_ENOTDIR t cur cs :
  walk t cur cs = inl ENOTDIR →
  ∃ i d, i < length cs ∧
         t !! foldl lookup_step cur (take i cs) = Some (File d).
Proof.
  revert cur. induction cs as [|c cs IH]; intros cur; simpl; [done|].
  destruct (t !! cur) as [[|d]|] eqn:E; [|intros _|done].
  - intros (i & d & Hi & Hk)%IH. exists (S i), d. split; [lia|done].
  - exists 0, d. split; [lia|done].
Qed.

Lemma mkdir_inl s p en :
  sys.mkdir s p = inl en → en = EEXIST ∨ namei s p = inl en.
Proof.
  unfold sys.mkdir. destruct (namei s p) as [e|k]; [intros [= <-]; by right|].
  destruct (last (segments p)) as [c|]; [|intros [= <-]; by left].
  destruct (special c); [intros [= <-]; by left|].
  destruct (tree s !! k); [intros [= <-]; by left|done].
Qed.

(** Where [makedirs] goes straight to [mkdir], the lookup of the name does
    not end at something missing. *)
Lemma namei_guard_false_found s name hd tl :
  wf_fs s → truthy name = true →
  os.head_tail name = (hd, tl) →
  truthy hd && truthy tl && negb (os.path.exists_ s hd) = false →
  namei s name ≠ inl ENOENT.
Proof.
  intros Hwf Hname E G.
  destruct (truthy hd) eqn:Hh, (truthy tl) eqn:Ht; simpl in G.
  - apply negb_false_iff, exists_iff in G as (kd & n & Hn & Hk & _).
    apply head_tail_spec in E as (Hsep & Hseg & Hst & _).
    destruct (Hst Hh) as [Hsw _].
    apply namei_walk in Hn as [_ Hw].
    unfold namei. rewrite Hname, Hseg, (segments_no_sep tl), Ht by done.
    rewrite walk_app, <- (start_head s name hd), Hw by done. simpl.
    rewrite Hk. by destruct n.
  - apply head_tail_spec in E as (_ & _ & _ & _ & Hnil).
    unfold namei. by rewrite Hname, Hnil.
  - apply head_tail_spec in E as (Hsep & Hseg & _).
    apply truthy_false in Hh as ->.
    rewrite segments_nil, app_nil_l, (segments_no_sep tl), Ht in Hseg by done.
    unfold namei. rewrite Hname, Hseg. simpl. by rewrite wf_start.
  - apply head_tail_spec in E as (_ & _ & _ & _ & Hnil).
    unfold namei. by rewrite Hname, Hnil.
Qed.

(** What makes [mkdir] fail on a name that is no directory: a regular file
    at its key, or on the way to it. *)
Lemma mkdir_raise_cause s name en :
  wf_fs s → namei s name ≠ inl ENOENT →
  sys.mkdir s name = inl en → os.path.isdir s name = false →
  1 ≤ length (segments name) ∧
  ((en = EEXIST ∧ is_regular (tree s !! norm s name)) ∨
   (en = ENOTDIR ∧ ∃ k, k ∈ prefix_keys s name ∧ is_regular (tree s !! k))).
Proof.
  intros Hwf Hfound Hm Hd.
  assert (Hnd : ∀ k, namei s name = inr k → tree s !! k ≠ Some Dir).
  { intros k Hn Hk. rewrite (proj2 (isdir_iff s name)) in Hd by eauto.
    done. }
  destruct (mkdir_inl _ _ _ Hm) as [->|Hn].
  - apply mkdir_EEXIST in Hm as (k & Hn & Hcase).
    specialize (Hnd k Hn).
    destruct Hcase as [Hl|[(c & Hl & Hc)|[n Hk]]].
    + apply (namei_no_last _ _ _ Hn) in Hl as ->. by destruct Hwf as (? & _).
    + destruct (namei_last _ _ _ _ Hn Hl) as (i & kd & _ & _ & Hkd & ->).
      by destruct Hnd; apply wf_lookup_step.
    + destruct n as [|d]; [done|].
      assert (segments name ≠ []) as Hne.
      { intros E. apply (namei_no_last s name k) in Hn; [|by rewrite E].
        subst k. destruct Hwf as (? & _). congruence. }
      split; [destruct (segments name); simpl; [done|lia]|].
      left. split; [done|]. apply namei_norm in Hn as <-. by rewrite Hk.
  - destruct (namei_err _ _ _ Hn) as [->| ->]; [done|].
    unfold namei in Hn. destruct (truthy name); [|done].
    apply walk_ENOTDIR in Hn as (i & d & Hi & Hk).
    split; [lia|]. right. split; [done|].
    destruct i as [|i].
    { simpl in Hk. rewrite wf_start in Hk by done. done. }
    exists (prefix_key s name (S i)). split; [|unfold prefix_key; by rewrite Hk].
    apply elem_of_prefix_keys. exists (S i). split; [lia|done].
Qed.

(** The keys of a leading part of a path are keys of the path. *)
Lemma leading_keys s q name i :
  i ≤ length (segments name) →
  start s q = start s name → segments q = take i (segments name) →
  norm s q = prefix_key s name i ∧
  ∀ k, k ∈ prefix_keys s q → k ∈ prefix_keys s name.
Proof.
  intros Hi Hst Hseg. split.
  - unfold norm, prefix_key. by rewrite Hst, Hseg.
  - intros k (j & Hj & ->)%elem_of_prefix_keys.
    rewrite Hseg, length_take in Hj.
    apply elem_of_prefix_keys. exists j. split; [lia|].
    unfold prefix_key. rewrite Hst, Hseg, take_take. f_equal. f_equal. lia.
Qed.

(** When [makedirs] raises, on a plain name, the error names a leading
    part of the name, and a regular file was there from the start: at the
    key of that part ([FileExistsError]) or on the way to it
    ([NotADirectoryError]). *)
Lemma makedirs_raise_cause name : ∀ s e s',
  wf_fs s → plain name → truthy name = true →
  makedirs name true s = (Raise e, s') →
  (∃ i, 1 ≤ i ≤ length (segments name) ∧
        start s (filename e) = start s name ∧
        segments (filename e) = take i (segments name)) ∧
  ((err e = EEXIST ∧ is_regular (tree s !! norm s (filename e))) ∨
   (err e = ENOTDIR ∧
    ∃ k, k ∈ prefix_keys s (filename e) ∧ is_regular (tree s !! k))).
Proof.
  induction name as [name IH] using makedirs_induction.
  intros s e s' Hwf Hplain Hname H.
  assert (Hself : ∀ s1 en,
    adds_dirs s s1 → wf_fs s1 → namei s1 name ≠ inl ENOENT →
    sys.mkdir s1 name = inl en → os.path.isdir s1 name = false →
    (∃ i, 1 ≤ i ≤ length (segments name) ∧
          start s name = start s name ∧
          segments name = take i (segments name)) ∧
    ((en = EEXIST ∧ is_regular (tree s !! norm s name)) ∨
     (en = ENOTDIR ∧
      ∃ k, k ∈ prefix_keys s name ∧ is_regular (tree s !! k)))).
  { intros s1 en Ha Hwf1 Hfound Hm Hd.
    destruct (mkdir_raise_cause s1 name en Hwf1 Hfound Hm Hd) as [Hlen Hc].
    assert (Hreg : ∀ k, is_regular (tree s1 !! k) → is_regular (tree s !! k)).
    { intros k Hk. destruct (tree s1 !! k) as [[|d]|] eqn:E; try done.
      by rewrite (adds_dirs_file s s1 k d Ha E). }
    split.
    { exists (length (segments name)). split_and!; [lia|lia|done|].
      by rewrite take_ge. }
    destruct Hc as [[-> Hk]|(-> & k & Hk & Hr)]; [left|right].
    - split; [done|]. apply Hreg.
      by rewrite <- (norm_cwd s s1) by apply Ha.
    - split; [done|]. exists k. split; [|by apply Hreg].
      unfold prefix_keys in *. erewrite map_ext; [exact Hk|].
      intros i. symmetry. apply prefix_key_cwd, Ha. }
  apply makedirs_inv in H
    as (hd & tl & E & [[G H]|(Hh & Ht & Hex & r1 & s1 & H1 & H)]).
  { apply mkdir_exist_ok_step in H as (_ & _ & _ & H).
    destruct (H e eq_refl) as (-> & Hd & en & Hm & ->). simpl.
    apply (Hself s en); [apply adds_dirs_refl|done| |done..].
    by eapply namei_guard_false_found. }
  destruct (makedirs_adds_dirs _ _ _ _ H1) as [Ha Hwf1].
  pose proof (plain_head _ _ _ E Hplain) as Hplainh.
  pose proof E as (Hsep & Hseg & Hst & Hend & _)%head_tail_spec.
  destruct (Hst Hh) as [Hsw _].
  rewrite (segments_no_sep tl), Ht in Hseg by done.
  destruct H as [(e' & -> & Hne & [= <-] & ->)|[Hr1 [(_ & ? & _)|[Hdot H]]]];
    [|done|].
  - destruct (IH hd tl E Hh Ht s e s1 Hwf Hplainh Hh H1)
      as [(i & Hi & Hsti & Hsegi) Hcause].
    split; [|done]. exists i. rewrite Hseg, length_app. simpl.
    split_and!; [lia|lia| |].
    + rewrite Hsti. by apply start_head.
    + rewrite Hsegi, take_app_le; [done|lia].
  - destruct Hr1 as [->|(e' & -> & He')].
    2:{ exfalso. by eapply makedirs_no_EEXIST. }
    apply mkdir_exist_ok_step in H as (_ & _ & _ & H).
    destruct (H e eq_refl) as (-> & Hd & en & Hm & ->). simpl.
    apply (Hself s1 en); [done|by auto| |done..].
    pose proof (makedirs_isdir hd s s1 Hwf Hplainh H1)
      as (kd & Hn & Hkd)%isdir_iff.
    assert (namei s1 name = inr (lookup_step kd tl)) as ->; [|done].
    apply (namei_head_tail s1 name hd tl _ E Hh Ht). eauto.
Qed.

Lemma made_by_refl base table s : made_by base table s s.
Proof. split_and!; auto. Qed.

Lemma made_by_trans base table s1 s2 s3 :
  made_by base table s1 s2 → made_by base table s2 s3 →
  made_by base table s1 s3.
Proof.
  intros (Hc1 & Hd1 & Hf1) (Hc2 & Hd2 & Hf2). split_and!; [congruence|..].
  - intros k Hk. destruct (Hd2 k Hk) as [H|H]; [by apply Hd1|].
    right. by rewrite <- (folder_keys_cwd base table s1 s2).
  - intros k Hk. destruct (Hf2 k Hk) as [H|H]; [by apply Hf1|].
    right. by rewrite <- (file_keys_cwd base table s1 s2).
Qed.

Lemma run_action_made_by base table a x r x' :
  a ∈ actions base table → run_action a x = (r, x') →
  made_by base table x x'.
Proof.
  intros (folder & files & He & Ha)%elem_of_actions H.
  pose proof (run_action_grows _ _ _ _ H) as [Hc _].
  destruct Ha as [->|(f & Hf & ->)].
  - simpl in H. pose proof (makedirs_adds_dirs _ _ _ _ H) as [[_ Ha] _].
    split_and!; [done|..].
    + intros k Hk. destruct (Ha k) as [E|[E _]]; [left; congruence|right].
      apply elem_of_folder_keys. exists folder, files. split; [done|].
      apply elem_of_prefix_keys, (makedirs_frame _ _ _ _ k H). congruence.
    + intros k Hk. left. destruct (Ha k) as [E|[_ E]]; [by rewrite <- E|].
      by rewrite E in Hk.
  - split_and!; [done|..].
    + intros k Hk. left.
      destruct (decide (tree x' !! k = tree x !! k)) as [E|E]; [congruence|].
      pose proof (create_file_frame _ _ _ _ _ H E) as ->.
      apply create_file_inv in H as [(_ & _ & _ & ->)|(k' & Ho & _ & Ex)];
        [done|].
      apply open_trunc_inr in Ho as (Hn%namei_norm & _). subst k'.
      rewrite Ex in Hk. simpl in Hk. by rewrite lookup_insert_eq in Hk.
    + intros k Hk.
      destruct (decide (tree x' !! k = tree x !! k)) as [E|E];
        [left; by rewrite <- E|right].
      pose proof (create_file_frame _ _ _ _ _ H E) as ->.
      apply elem_of_file_keys. eauto 10.
Qed.

Lemma run_actions_made_by base table l x r x' :
  l ⊆ actions base table → for_each l run_action x = (r, x') →
  made_by base table x x'.
Proof.
  revert x. induction l as [|a l IH]; intros x Hl.
  { intros [= <- <-]. apply made_by_refl. }
  rewrite for_each_cons.
  assert (Ha : a ∈ actions base table) by (apply Hl, elem_of_cons; auto).
  assert (Hrest : l ⊆ actions base table).
  { intros b Hb. apply Hl, elem_of_cons. auto. }
  destruct (run_action a x) as [[[]|e] x1] eqn:E.
  - intros H. eapply made_by_trans; [by eapply run_action_made_by|by eapply IH].
  - intros [= <- <-]. by eapply run_action_made_by.
Qed.

Lemma actions_subseteq base l table : l ⊆ table → actions base l ⊆ actions base table.
Proof.
  intros Hl a (folder & files & He & Ha)%elem_of_actions.
  apply elem_of_actions. exists folder, files. split; [by apply Hl|done].
Qed.

(** What a raising run over a tidy table found in its way. *)
Lemma scaffold_raise_cause base table s e s' :
  wf_fs s → tidy base table →
  scaffold base table s = (Raise e, s') →
  (err e = EISDIR ∧
   norm s (filename e) ∈ file_keys base table s ∧
   tree s !! norm s (filename e) = Some Dir) ∨
  (err e = EEXIST ∧
   norm s (filename e) ∈ folder_keys base table s ∧
   is_regular (tree s !! norm s (filename e))) ∨
  (err e = ENOTDIR ∧
   norm s (filename e) ∈ folder_keys base table s ∧
   ∃ k, k ∈ prefix_keys s (filename e) ∧ is_regular (tree s !! k)).
Proof.
  intros Hwf Ht H. unfold scaffold in H.
  apply for_each_raise in H as (l1 & [folder files] & l2 & x & Hl & H1 & H).
  assert (He : (folder, files) ∈ table).
  { rewrite Hl. apply elem_of_app. right. apply elem_of_cons. by left. }
  assert (Hsub : l1 ⊆ table).
  { intros en Hen. rewrite Hl. apply elem_of_app. by left. }
  fold (scaffold base l1) in H1.
  pose proof (scaffold_wf _ _ _ _ _ H1 Hwf) as Hwfx.
  rewrite scaffold_actions in H1.
  pose proof (run_actions_made_by base table _ _ _ _
                (actions_subseteq base l1 table Hsub) H1) as Hmx.
  destruct (tidy_lookup _ _ _ _ Ht He) as (Hd & Hrel & Hplain & Hfiles).
  unfold create_folder, mbind, io_bind in H.
  destruct (makedirs (posixpath.join base folder) true x)
    as [[[]|e1] x1] eqn:Hmk.
  - (* the folder was made: a file of the entry could not be opened *)
    left. rewrite create_files_actions in H.
    apply for_each_raise in H as (m1 & a & m2 & y & Hm & Hy & Ha).
    assert (Hin : a ∈ map (λ f, CreateFile
                    (posixpath.join (posixpath.join base folder) f)) files).
    { rewrite Hm. apply elem_of_app. right. apply elem_of_cons. by left. }
    apply list_elem_of_In, in_map_iff in Hin as (f & <- & Hf%list_elem_of_In).
    assert (Hmy : made_by base table s y).
    { eapply made_by_trans; [exact Hmx|].
      eapply made_by_trans.
      - eapply (run_action_made_by base table (MakeDirs _)); [|exact Hmk].
        apply elem_of_actions. eauto 10.
      - eapply run_actions_made_by; [|exact Hy].
        intros b Hb. apply elem_of_actions. exists folder, files.
        split; [done|right].
        assert (b ∈ map (λ f, CreateFile
                  (posixpath.join (posixpath.join base folder) f)) files)
          as Hb'.
        { rewrite Hm. apply elem_of_app. by left. }
        apply list_elem_of_In, in_map_iff in Hb' as (g & <- & Hg).
        exists g. split; [by apply list_elem_of_In|done]. }
    assert (Hdir : os.path.isdir y (posixpath.join base folder) = true).
    { eapply grows_isdir; [by eapply run_actions_grows|].
      by eapply makedirs_isdir. }
    destruct (Hfiles f Hf) as [Hsep Hname].
    destruct (proper_name_facts f Hname) as [Htr Hsp].
    destruct (tidy_file_path _ _ _ _ _ Ht He Hf) as (_ & _ & Hend & Hseg).
    destruct (namei_in_dir y _ f Hdir Hsep) as [k Hn].
    apply create_file_inv in Ha as [(en & Ho & [= ->] & _)|(_ & _ & ? & _)];
      [|done].
    simpl.
    assert (Hk : tree y !! k = Some Dir).
    { destruct (decide (tree y !! k = Some Dir)) as [|Hnd]; [done|].
      pose proof (open_trunc_ok y _ k f Hn Hend) as Ho'.
      rewrite Hseg, last_snoc in Ho'.
      rewrite (Ho' eq_refl Hsp Hnd) in Ho. done. }
    destruct (open_trunc_inl _ _ _ Ho) as [Hn'| ->]; [congruence|].
    apply namei_norm in Hn. rewrite (norm_cwd s y) in Hn by apply Hmy.
    rewrite <- Hn.
    assert (Hfk : k ∈ file_keys base table s).
    { apply elem_of_file_keys. exists folder, files, f. by rewrite Hn. }
    split_and!; [done..|].
    destruct Hmy as (_ & Hdirs & _). destruct (Hdirs k Hk) as [|Hfold]; [done|].
    by destruct (tidy_disjoint base table s k Ht Hfk).
  - (* the folder could not be made *)
    right. injection H as -> <-.
    destruct (makedirs_raise_cause _ x e x1 Hwfx Hplain Hd Hmk)
      as [(i & Hi & Hst & Hseg) Hcause].
    destruct (leading_keys x (filename e) (posixpath.join base folder) i)
      as [Hnorm Hkeys]; [lia|done..|].
    destruct Hmx as (Hc & _ & Hreg).
    assert (Hfold : ∀ k, k ∈ prefix_keys x (posixpath.join base folder) →
              k ∈ folder_keys base table s).
    { intros k Hk. rewrite <- (folder_keys_cwd base table s x) by done.
      apply elem_of_folder_keys. eauto. }
    assert (Hfrom : ∀ k, k ∈ prefix_keys x (posixpath.join base folder) →
              is_regular (tree x !! k) → is_regular (tree s !! k)).
    { intros k Hk Hr. destruct (Hreg k Hr) as [|Hfk]; [done|].
      by destruct (tidy_disjoint base table s k Ht Hfk); apply Hfold. }
    assert (Hnk : norm x (filename e)
                  ∈ prefix_keys x (posixpath.join base folder)).
    { rewrite Hnorm. apply elem_of_prefix_keys. eauto. }
    rewrite (norm_cwd x s) by done.
    destruct Hcause as [[-> Hr]|(-> & k & Hk & Hr)]; [left|right].
    + split_and!; [done|by apply Hfold|by apply Hfrom].
    + split_and!; [done|by apply Hfold|]. exists k. split.
      * apply elem_of_prefix_keys.
        apply elem_of_prefix_keys in Hk as (j & Hj & ->).
        exists j. split; [done|]. by apply prefix_key_cwd.
      * apply Hfrom; [by apply Hkeys|done].
Qed.


(** X5: what an error of a run says about the file system the run
    started from, for a tidy table whose paths are within the limits on
    names, on a well-formed file system.  [IsADirectoryError] names a file
    of the table at whose key a directory was; [FileExistsError] names a
    folder of the table, or a directory leading to one, at whose key a
    regular file was; [NotADirectoryError] names such a path with a regular
    file on the way to it.  So none of the three is the doing of the run
    itself. *)
Theorem X5_error_cause base table s e s' :
  wf_fs s → tidy base table → names_within_limits base table →
  scaffold base table s = (Raise e, s') →
  (err e = EISDIR →
   norm s (filename e) ∈ file_keys base table s ∧
   tree s !! norm s (filename e) = Some Dir) ∧
  (err e = EEXIST →
   norm s (filename e) ∈ folder_keys base table s ∧
   is_regular (tree s !! norm s (filename e))) ∧
  (err e = ENOTDIR →
   norm s (filename e) ∈ folder_keys base table s ∧
   ∃ k, k ∈ prefix_keys s (filename e) ∧ is_regular (tree s !! k)).
Proof.
  intros Hwf Ht _ H.
  destruct (scaffold_raise_cause base table s e s' Hwf Ht H)
    as [[He Hcause]|[[He Hcause]|[He Hcause]]];
    split_and!; intros He'; try done; congruence.
Qed.

Lemma X5_error_cause_witness :
  ((main fs_blocked).1 = Raise (mkOSError EEXIST "src/pages") ∧
   is_regular (tree fs_blocked !! ["home"; "agro-track"; "src"; "pages"])) ∧
  ((main fs_dir_for_file).1 = Raise (mkOSError EISDIR "src/./App.jsx") ∧
   tree fs_dir_for_file !! ["home"; "agro-track"; "src"; "App.jsx"]
   = Some Dir).
Proof.
  split.
  - split; [vm_compute; reflexivity|].
    destruct (X5_error_cause base_dir structure fs_blocked
                (mkOSError EEXIST "src/pages") (main fs_blocked).2)
      as (_ & Hcause & _);
      [compute_done|compute_done|compute_done|
       apply raised; vm_compute; reflexivity|].
    exact (proj2 (Hcause eq_refl)).
  - split; [vm_compute; reflexivity|].
    destruct (X5_error_cause base_dir structure fs_dir_for_file
                (mkOSError EISDIR "src/./App.jsx") (main fs_dir_for_file).2)
      as (Hcause & _);
      [compute_done|compute_done|compute_done|
       apply raised; vm_compute; reflexivity|].
    exact (proj2 (Hcause eq_refl)).
Defined.

(** ** The order of the table *)







